(** * Solar_System: a shallow embedding of [Cpp_minidemo/Solar_System/main.cpp]

    The program keeps eight [Planet] records, advances each of them once per
    frame with [Planet::updatePosition] and draws them with SDL.  The
    embedding keeps the C++ types:

    - [int] is a [Z] confined to 32 bits; signed overflow and an
      out-of-range [static_cast<int>] are undefined in C++, so the operations
      that can reach them return [option];
    - [double] is Rocq's primitive binary64 [float], whose operations are the
      IEEE 754 ones that the compiled program executes;
    - [cos] and [sin] come from the C library; they are an interface
      ([Libm]) with the properties the C standard gives them;
    - SDL calls are recorded as a trace of [Effect]s. *)

From Stdlib Require Import String ZArith List Bool Lia Floats Permutation.
From Stdlib Require Uint63.
Import ListNotations.
Local Open Scope Z_scope.

(** ** Option monad for the operations that can be undefined *)

Definition obind {A B : Type} (o : option A) (k : A -> option B) : option B :=
  match o with
  | Some a => k a
  | None => None
  end.

Notation "x <- c ;; k" := (obind c (fun x => k))
  (at level 61, c at next level, right associativity).

(** ** C++ [int] *)

Module Int.
Definition min_value : Z := -2147483648.
Definition max_value : Z := 2147483647.

Definition in_range (z : Z) : bool := (min_value <=? z) && (z <=? max_value).

(** The mathematical result if it is representable, undefined otherwise. *)
Definition checked (z : Z) : option Z := if in_range z then Some z else None.

Definition add (a b : Z) : option Z := checked (a + b).
Definition sub (a b : Z) : option Z := checked (a - b).
End Int.

(** ** C++ [double] *)

Module Double.
(** Neither an infinity nor a NaN. *)
Definition finite (f : float) : bool :=
  match Prim2SF f with
  | S754_zero _ | S754_finite _ _ _ => true
  | _ => false
  end.

(** The integral part of a finite double: the fraction is discarded
    (rounding toward zero). *)
Definition truncate (f : float) : option Z :=
  match Prim2SF f with
  | S754_zero _ => Some 0
  | S754_finite s m e => Some (cond_Zopp s (Z.shiftl (Zpos m) e))
  | _ => None
  end.

(** [static_cast<int>(f)]: the truncated value when [int] can hold it. *)
Definition to_int (f : float) : option Z :=
  t <- truncate f ;; Int.checked t.

(** [static_cast<double>(z)] for an [int] [z]; the conversion is exact. *)
Definition of_int (z : Z) : float :=
  if z <? 0 then (- of_uint63 (Uint63.of_Z (- z)))%float
  else of_uint63 (Uint63.of_Z z).
End Double.

(** ** The C library's [cos] and [sin]

    The bodies of the two functions are not part of the program.  What the
    program relies on is what ISO C (Annex F.10.1) and every libm provide:
    [cos(+0) = 1], [sin(+0) = +0], and results of magnitude at most one
    on finite arguments. *)

Class Libm : Type := {
  cos : float -> float;
  sin : float -> float;
  cos_zero : cos 0%float = 1%float;
  sin_zero : sin 0%float = 0%float;
  cos_bounded : forall a, Double.finite a = true -> (abs (cos a) <=? 1)%float = true;
  sin_bounded : forall a, Double.finite a = true -> (abs (sin a) <=? 1)%float = true
}.

(** ** SDL data *)

Record SDL_Rect : Type := { x : Z; y : Z; w : Z; h : Z }.

(** The ten textures of [main], named as the variables that hold them. *)
Inductive Texture : Type :=
| textureStars | textureSun
| textureMercury | textureVenus | textureEarth | textureMars
| textureJupiter | textureSaturn | textureUranus | textureNeptune.

Definition bmp_path (t : Texture) : string :=
  match t with
  | textureStars => "./images/stars.bmp"
  | textureSun => "./images/sun.bmp"
  | textureMercury => "./images/mercury.bmp"
  | textureVenus => "./images/venus.bmp"
  | textureEarth => "./images/earth.bmp"
  | textureMars => "./images/mars.bmp"
  | textureJupiter => "./images/jupiter.bmp"
  | textureSaturn => "./images/saturn.bmp"
  | textureUranus => "./images/uranus.bmp"
  | textureNeptune => "./images/neptune.bmp"
  end.

(** [SDL_Event], reduced to the two fields [main] reads.  The numeric
    values of the constants are those of SDL2's headers. *)
Record SDL_Event : Type := { type : Z; key_keysym_sym : Z }.

Definition SDL_QUIT : Z := 256.
Definition SDL_KEYDOWN : Z := 768.
Definition SDLK_ESCAPE : Z := 27.

(** What the program does to the outside world, in program order.  The
    argument of [SDL_DestroyTexture] is the pointer it is called on: [None]
    is the null pointer. *)
Inductive Effect : Type :=
| Stdout (msg : string)
| Stderr (msg : string)
| SDL_Init
| SDL_SetHint
| SDL_CreateWindow (width height : Z)
| SDL_CreateRenderer
| LoadTexture (path : string)
| SDL_SetRenderDrawColor
| SDL_RenderClear
| SDL_RenderCopy (t : Texture) (dst : SDL_Rect)
| SDL_RenderPresent
| SDL_Delay (ms : Z)
| SDL_DestroyWindow
| SDL_Quit
| SDL_DestroyTexture (p : option Texture).

(** ** [struct Planet] *)

Record Planet : Type := {
  rect : SDL_Rect;
  orbitRadius : float;
  orbitSpeed : float;
  angle : float;
  texture : Texture;
  halfW : Z;
  halfH : Z
}.

(** The constructor [Planet::Planet]; [/] on [int] truncates. *)
Definition Planet_new (w h : Z) (orbitRadius orbitSpeed angle : float)
    (texture : Texture) : Planet :=
  {| rect := {| x := 0; y := 0; w := w; h := h |};
     orbitRadius := orbitRadius;
     orbitSpeed := orbitSpeed;
     angle := angle;
     texture := texture;
     halfW := Z.quot w 2;
     halfH := Z.quot h 2 |}.

Section PlanetMethods.
Context {libm : Libm}.

(** [Planet::updatePosition] *)
Definition updatePosition (sunX sunY : Z) (p : Planet) : option Planet :=
  dx <- Double.to_int (orbitRadius p * cos (angle p))%float ;;
  sx <- Int.add sunX dx ;;
  px <- Int.sub sx (halfW p) ;;
  dy <- Double.to_int (orbitRadius p * sin (angle p))%float ;;
  sy <- Int.add sunY dy ;;
  py <- Int.sub sy (halfH p) ;;
  Some {| rect := {| x := px; y := py; w := w (rect p); h := h (rect p) |};
          orbitRadius := orbitRadius p;
          orbitSpeed := orbitSpeed p;
          angle := (angle p + orbitSpeed p)%float;
          texture := texture p;
          halfW := halfW p;
          halfH := halfH p |}.
End PlanetMethods.

(** [Planet::render]: one [SDL_RenderCopy] of the planet's texture to its
    rectangle; the planet is not modified. *)
Definition render (p : Planet) : Effect := SDL_RenderCopy (texture p) (rect p).

(** The two member functions as operations on one body. *)
Inductive PlanetOp : Type :=
| DoUpdate (sunX sunY : Z)
| DoRender.

(** Assignment to element [i] of an array; out of range nothing is stored
    (the program never indexes out of range). *)
Fixpoint set_nth {A : Type} (i : nat) (v : A) (l : list A) : list A :=
  match l, i with
  | [], _ => []
  | _ :: t, O => v :: t
  | a :: t, S i' => a :: set_nth i' v t
  end.

(** ** [main] *)

Definition SCREEN_WIDTH : Z := 1920.
Definition SCREEN_HEIGHT : Z := 1080.

Definition sunRect : SDL_Rect :=
  {| x := Z.quot (SCREEN_WIDTH - 100) 2; y := Z.quot (SCREEN_HEIGHT - 100) 2;
     w := 100; h := 100 |}.

Definition backgroundRect : SDL_Rect :=
  {| x := 0; y := 0; w := SCREEN_WIDTH; h := SCREEN_HEIGHT |}.

Definition sunXCoordinate : Z := x sunRect + Z.quot (w sunRect) 2.
Definition sunYCoordinate : Z := y sunRect + Z.quot (h sunRect) 2.

(** The literals are C++ [double] literals: each denotes the nearest
    binary64 value, and the products are binary64 products. *)
#[local] Set Warnings "-inexact-float".

Definition mercury : Planet := Planet_new 30 30 80.0 (0.02 * 4.15) 45.0 textureMercury.
Definition venus : Planet := Planet_new 40 40 125.0 (0.02 * 1.62) 90.0 textureVenus.
Definition earth : Planet := Planet_new 50 50 175.0 0.02 135.0 textureEarth.
Definition mars : Planet := Planet_new 40 40 225.0 (0.02 * 0.53) 180.0 textureMars.
Definition jupiter : Planet := Planet_new 80 80 290.0 (0.02 * 0.084) 225.0 textureJupiter.
Definition saturn : Planet := Planet_new 70 70 380.0 (0.02 * 0.034) 270.0 textureSaturn.
Definition uranus : Planet := Planet_new 60 60 470.0 (0.02 * 0.012) 315.0 textureUranus.
Definition neptune : Planet := Planet_new 60 60 550.0 (0.02 * 0.006) 0.0 textureNeptune.

Definition planets : list Planet :=
  [mercury; venus; earth; mars; jupiter; saturn; uranus; neptune].

(** One event of the inner [SDL_PollEvent] loop: the two [if]s of the
    source, in order. *)
Definition handle_event (running : bool) (event : SDL_Event) : bool :=
  let running := if type event =? SDL_QUIT then false else running in
  if type event =? SDL_KEYDOWN
  then (if key_keysym_sym event =? SDLK_ESCAPE then false else running)
  else running.

(** [while (SDL_PollEvent(&event)) ...] over the events that are pending. *)
Definition poll_events (pending : list SDL_Event) (running : bool) : bool :=
  fold_left handle_event pending running.

Section MainLoop.
Context {libm : Libm}.

(** [for (Planet& planet : planets) { updatePosition; render }]:
    the updated array and the draw calls, in order. *)
Fixpoint update_and_render (sunX sunY : Z) (ps : list Planet)
    : option (list Planet * list Effect) :=
  match ps with
  | [] => Some ([], [])
  | planet :: rest =>
      planet' <- updatePosition sunX sunY planet ;;
      r <- update_and_render sunX sunY rest ;;
      Some (planet' :: fst r, render planet' :: snd r)
  end.

(** The body of the main loop after event polling. *)
Definition frame (ps : list Planet) : option (list Planet * list Effect) :=
  r <- update_and_render sunXCoordinate sunYCoordinate ps ;;
  Some (fst r,
        [SDL_RenderClear;
         SDL_RenderCopy textureStars backgroundRect;
         SDL_RenderCopy textureSun sunRect]
        ++ snd r ++ [SDL_RenderPresent; SDL_Delay 16]).

(** How the main loop can end.  The events arrive as one list per
    iteration (what [SDL_PollEvent] hands out during that iteration);
    when the lists run out while [running] is still set the loop is
    [Waiting] for more. *)
Inductive LoopEnd : Type :=
| Stopped (ps : list Planet)
| Waiting (ps : list Planet)
| Undefined.

Fixpoint main_loop (polls : list (list SDL_Event)) (ps : list Planet)
    : LoopEnd * list Effect :=
  match polls with
  | [] => (Waiting ps, [])
  | pending :: later =>
      let running := poll_events pending true in
      match frame ps with
      | None => (Undefined, [])
      | Some (ps', drawn) =>
          if running
          then let (e, tr) := main_loop later ps' in (e, drawn ++ tr)
          else (Stopped ps', drawn)
      end
  end.

(** [planets[i].updatePosition(sunX, sunY)], in place. *)
Definition update_at (sunX sunY : Z) (i : nat) (ps : list Planet)
    : option (list Planet) :=
  planet <- nth_error ps i ;;
  planet' <- updatePosition sunX sunY planet ;;
  Some (set_nth i planet' ps).

(** The bodies named by [order] updated one after the other. *)
Fixpoint update_in_order (sunX sunY : Z) (order : list nat) (ps : list Planet)
    : option (list Planet) :=
  match order with
  | [] => Some ps
  | i :: rest =>
      ps' <- update_at sunX sunY i ps ;;
      update_in_order sunX sunY rest ps'
  end.

(** Any sequence of the two per-frame operations on one body. *)
Fixpoint run_ops (ops : list PlanetOp) (p : Planet) : option (Planet * list Effect) :=
  match ops with
  | [] => Some (p, [])
  | DoUpdate sunX sunY :: rest =>
      p' <- updatePosition sunX sunY p ;; run_ops rest p'
  | DoRender :: rest =>
      r <- run_ops rest p ;; Some (fst r, render p :: snd r)
  end.

(** [n] calls of [updatePosition] on one body. *)
Fixpoint updates (n : nat) (sunX sunY : Z) (p : Planet) : option Planet :=
  match n with
  | O => Some p
  | S n' => p' <- updatePosition sunX sunY p ;; updates n' sunX sunY p'
  end.

(** [n] frames of the main loop on the whole array. *)
Fixpoint frames (n : nat) (ps : list Planet) : option (list Planet * list Effect) :=
  match n with
  | O => Some (ps, [])
  | S n' =>
      r <- frame ps ;;
      r' <- frames n' (fst r) ;;
      Some (fst r', snd r ++ snd r')
  end.
End MainLoop.

(** What the machine answers at startup: whether [SDL_Init] succeeds,
    whether [SDL_CreateWindow] returns a window (the program does not look
    at this answer), which textures can be created from their BMP files, and
    [SDL_GetError]'s text. *)
Record Startup : Type := {
  sdl_init_ok : bool;
  window_ok : bool;
  texture_ok : Texture -> bool;
  sdl_error : string
}.

Definition all_textures : list Texture :=
  [textureStars; textureSun; textureMercury; textureVenus; textureEarth;
   textureMars; textureJupiter; textureSaturn; textureUranus; textureNeptune].

(** The result of a run: [Returned c] is [return c] from [main], which
    ends the process. *)
Inductive Status : Type :=
| Returned (code : Z)
| StillRunning
| UndefinedBehaviour.

(** The pointer that the [shared_ptr] of a texture variable holds: null
    when the texture could not be created. *)
Definition texture_ptr (env : Startup) (t : Texture) : option Texture :=
  if texture_ok env t then Some t else None.

(** Leaving [main] once the ten [shared_ptr]s exist destroys them in the
    reverse order of their declaration.  Each of them is then the last
    owner of its pointer (the planets, which hold copies, are declared
    later and destroyed earlier) and calls its deleter,
    [SDL_DestroyTexture], on it; a [shared_ptr] built from a pointer and a
    deleter does so for a null pointer too. *)
Definition destroy_textures (env : Startup) : list Effect :=
  map (fun t => SDL_DestroyTexture (texture_ptr env t)) (rev all_textures).

Definition main {libm : Libm} (env : Startup) (polls : list (list SDL_Event))
    : Status * list Effect :=
  if negb (sdl_init_ok env) then
    (Returned (-1),
     [SDL_Init; Stderr ("SDL could not be initialized: " ++ sdl_error env)%string])
  else
    let startup :=
      [SDL_Init; Stdout "SDL video system initialized";
       SDL_SetHint; SDL_CreateWindow SCREEN_WIDTH SCREEN_HEIGHT; SDL_CreateRenderer]
      ++ map (fun t => LoadTexture (bmp_path t)) all_textures in
    if negb (forallb (texture_ok env) all_textures) then
      (Returned (-1),
       startup ++ [Stderr ("Failed to create texture: " ++ sdl_error env)%string]
       ++ destroy_textures env)
    else
      let (e, drawn) := main_loop polls planets in
      let tr := startup ++ [SDL_SetRenderDrawColor] ++ drawn in
      match e with
      | Stopped _ =>
          (Returned 0, tr ++ [SDL_DestroyWindow; SDL_Quit] ++ destroy_textures env)
      | Waiting _ => (StillRunning, tr)
      | Undefined => (UndefinedBehaviour, tr)
      end.

Definition is_frame_effect (e : Effect) : bool :=
  match e with
  | SDL_RenderClear | SDL_RenderCopy _ _ | SDL_RenderPresent | SDL_Delay _ => true
  | _ => false
  end.

Definition is_stderr (e : Effect) : bool :=
  match e with
  | Stderr _ => true
  | _ => false
  end.

(** ** Vocabulary of the properties *)

(** The events that the specification says end the loop: the system quit
    event and a key-down of the escape key. *)
Definition stops (event : SDL_Event) : bool :=
  (type event =? SDL_QUIT)
  || ((type event =? SDL_KEYDOWN) && (key_keysym_sym event =? SDLK_ESCAPE)).

(** A draw operation without its rectangle: what is drawn, not where. *)
Inductive Drawn : Type :=
| Clear
| Draw (t : Texture)
| Present.

(** The draw operation of an effect, if it is one. *)
Definition drawn (e : Effect) : list Drawn :=
  match e with
  | SDL_RenderClear => [Clear]
  | SDL_RenderCopy t _ => [Draw t]
  | SDL_RenderPresent => [Present]
  | _ => []
  end.

(** The draw operations of a trace, in order. *)
Definition draw_operations (tr : list Effect) : list Drawn := flat_map drawn tr.

(** The order the specification gives for one iteration. *)
Definition frame_order : list Drawn :=
  [Clear; Draw textureStars; Draw textureSun;
   Draw textureMercury; Draw textureVenus; Draw textureEarth; Draw textureMars;
   Draw textureJupiter; Draw textureSaturn; Draw textureUranus; Draw textureNeptune;
   Present].


(** The angle after [n] frames as the specification writes it: one
    product and one sum. *)
Definition spec_angle (initial speed : float) (n : nat) : float :=
  (initial + Double.of_int (Z.of_nat n) * speed)%float.

(** The same in real arithmetic.  [real_value f] is the value of a finite
    double in units of [2 ^ -1074], of which every finite double is an
    integral multiple; [exact_sum initial speed result n] says that
    [result] is [initial + n * speed] without any rounding. *)
Definition real_value (f : float) : option Z :=
  match Prim2SF f with
  | S754_zero _ => Some 0
  | S754_finite s m e => Some (cond_Zopp s (Zpos m * 2 ^ (e + 1074)))
  | _ => None
  end.

Definition exact_sum (initial speed result : float) (n : nat) : bool :=
  match real_value initial, real_value speed, real_value result with
  | Some a, Some s, Some v => v =? a + Z.of_nat n * s
  | _, _, _ => false
  end.

(** The angle after [n] frames as the program computes it: [n] sums. *)
Fixpoint angle_after (n : nat) (a speed : float) : float :=
  match n with
  | O => a
  | S n' => angle_after n' (a + speed)%float speed
  end.

(** Conditions under which a body can be updated for ever.  The angle is
    between [0] and [2 ^ 52]; the speed is positive, at most a quarter, and
    is absorbed by [2 ^ 52] (so the angle stops growing there); radius,
    half sizes and centre are far below the range of [int]. *)
Definition angle_ok (a : float) : bool :=
  ((0 <=? a) && (a <=? 0x1p52))%float.

Definition speed_ok (s : float) : bool :=
  ((0 <? s) && (s <=? 0.25))%float && Leibniz.eqb (0x1p52 + s)%float 0x1p52%float.

Definition small (z : Z) : bool := Z.abs z <=? 1048576.

Definition steady (p : Planet) : bool :=
  angle_ok (angle p) && speed_ok (orbitSpeed p)
  && (abs (orbitRadius p) <=? 0x1p20)%float
  && small (halfW p) && small (halfH p).

Definition small_centres (ops : list PlanetOp) : bool :=
  forallb (fun op =>
             match op with
             | DoUpdate sunX sunY => small sunX && small sunY
             | DoRender => true
             end) ops.

(** A stand-in for the C library, to run the definitions on concrete
    inputs: the first terms of the series, cut off to [[-1, 1]]. *)
Definition clip (f : float) : float := if (abs f <=? 1)%float then f else 0%float.
Definition series_cos (a : float) : float := clip (1 - a * a / 2)%float.
Definition series_sin (a : float) : float := clip (a - a * a * a / 6)%float.

Definition clip_bounded (f : float) : (abs (clip f) <=? 1)%float = true :=
  (if (abs f <=? 1)%float as b
     return (abs f <=? 1)%float = b -> (abs (if b then f else 0) <=? 1)%float = true
   then fun E => E
   else fun _ => eq_refl) eq_refl.

Definition series_libm : Libm :=
  {| cos := series_cos;
     sin := series_sin;
     cos_zero := eq_refl;
     sin_zero := eq_refl;
     cos_bounded := fun a _ => clip_bounded _;
     sin_bounded := fun a _ => clip_bounded _ |}.

(** A start in which every step succeeds except the creation of the earth
    texture (its BMP file is missing). *)
Definition earth_bmp_missing : Startup :=
  {| sdl_init_ok := true;
     window_ok := true;
     texture_ok := fun t => match t with textureEarth => false | _ => true end;
     sdl_error := "Couldn't open ./images/earth.bmp" |}.

(** Whether the window of the program is on the screen after the calls of
    a trace: it is there from an [SDL_CreateWindow] that succeeded until
    [SDL_DestroyWindow] or [SDL_Quit], which closes every window. *)
Definition window_shown (env : Startup) (tr : list Effect) : bool :=
  fold_left (fun shown e =>
               match e with
               | SDL_CreateWindow _ _ => window_ok env
               | SDL_DestroyWindow | SDL_Quit => false
               | _ => shown
               end) tr false.

(** Whether a run leaves a window open.  A window does not outlive its
    process: once [main] has returned, whatever the exit code and whatever
    was or was not cleaned up, none is left; while the program runs the
    window is the one its calls have made. *)
Definition window_left_open (env : Startup) (run : Status * list Effect) : bool :=
  match fst run with
  | Returned _ => false
  | StillRunning | UndefinedBehaviour => window_shown env (snd run)
  end.

(** The body [p] after an update that put it at [(px, py)]. *)
Definition placed (p : Planet) (px py : Z) : Planet :=
  {| rect := {| x := px; y := py; w := w (rect p); h := h (rect p) |};
     orbitRadius := orbitRadius p;
     orbitSpeed := orbitSpeed p;
     angle := (angle p + orbitSpeed p)%float;
     texture := texture p;
     halfW := halfW p;
     halfH := halfH p |}.

(** The effects of one frame that leaves the array as [ps']. *)
Definition frame_trace (ps' : list Planet) : list Effect :=
  [SDL_RenderClear;
   SDL_RenderCopy textureStars backgroundRect;
   SDL_RenderCopy textureSun sunRect]
  ++ map render ps' ++ [SDL_RenderPresent; SDL_Delay 16].

(** How many times the loop body runs on [polls]: up to and including the
    first poll that brings a stopping event. *)
Fixpoint iterations (polls : list (list SDL_Event)) : nat :=
  match polls with
  | [] => O
  | pending :: later => if existsb stops pending then 1%nat else S (iterations later)
  end.

(** Whether some poll brings a stopping event. *)
Definition quits (polls : list (list SDL_Event)) : bool :=
  existsb (existsb stops) polls.

(** ** Vocabulary of the further properties *)

(** The integral part of the magnitude of the orbit radius. *)
Definition reach (p : Planet) : option Z := Double.truncate (abs (orbitRadius p)).

(** A rectangle within the width, within the height of the window. *)
Definition inside_x (r : SDL_Rect) : bool :=
  (0 <=? x r) && (x r + w r <=? SCREEN_WIDTH).

Definition inside_y (r : SDL_Rect) : bool :=
  (0 <=? y r) && (y r + h r <=? SCREEN_HEIGHT).

Definition is_neptune (t : Texture) : bool :=
  match t with
  | textureNeptune => true
  | _ => false
  end.

(** A draw call whose destination is within the width of the window and,
    unless it draws neptune, within its height. *)
Definition drawn_inside (e : Effect) : bool :=
  match e with
  | SDL_RenderCopy t dst => inside_x dst && (is_neptune t || inside_y dst)
  | _ => true
  end.

(** A body whose sprite, anywhere within [reach] of the sun, is within the
    width of the window and, unless it is neptune, within its height. *)
Definition fits (p : Planet) : bool :=
  match reach p with
  | Some R =>
      (0 <=? sunXCoordinate - R - halfW p)
      && (sunXCoordinate + R - halfW p + w (rect p) <=? SCREEN_WIDTH)
      && (is_neptune (texture p)
          || ((0 <=? sunYCoordinate - R - halfH p)
              && (sunYCoordinate + R - halfH p + h (rect p) <=? SCREEN_HEIGHT)))
  | None => false
  end.

(** The number of frames presented in a trace. *)
Definition frames_presented (tr : list Effect) : nat :=
  length (filter (fun e => match e with SDL_RenderPresent => true | _ => false end) tr).


(** The effects of [main] from [SDL_Init] to the last texture. *)
Definition startup_effects : list Effect :=
  [SDL_Init; Stdout "SDL video system initialized";
   SDL_SetHint; SDL_CreateWindow SCREEN_WIDTH SCREEN_HEIGHT; SDL_CreateRenderer]
  ++ map (fun t => LoadTexture (bmp_path t)) all_textures.

(** A start in which everything succeeds, and the two stopping events. *)
Definition good_start : Startup :=
  {| sdl_init_ok := true; window_ok := true; texture_ok := fun _ => true;
     sdl_error := "none" |}.


Definition quit_event : SDL_Event := {| type := SDL_QUIT; key_keysym_sym := 0 |}.

Definition escape_down : SDL_Event :=
  {| type := SDL_KEYDOWN; key_keysym_sym := SDLK_ESCAPE |}.

Definition mouse_motion : SDL_Event := {| type := 1024; key_keysym_sym := 0 |}.


(** * Proofs *)

(** ** Binary64 rounding

    Facts about the IEEE 754 operations of the program, derived from the
    specification of the primitive floats ([SpecFloat], [FloatAxioms]).
    The main one: rounding to nearest never crosses a power of two. *)

Module Binary64.

Lemma fexp_eq e : fexp prec emax e = Z.max (e - 53) (-1074).
Proof. reflexivity. Qed.

Lemma digits2_pos_bounds m :
  2 ^ (Zpos (digits2_pos m) - 1) <= Zpos m < 2 ^ Zpos (digits2_pos m).
Proof.
  induction m as [m IH | m IH | ]; cbn [digits2_pos].
  - rewrite Pos2Z.inj_succ. change (Zpos m~1) with (2 * Zpos m + 1).
    replace (Z.succ (Zpos (digits2_pos m)) - 1) with (Z.succ (Zpos (digits2_pos m) - 1)) by lia.
    rewrite !Z.pow_succ_r by lia.
    generalize dependent (2 ^ (Zpos (digits2_pos m) - 1)).
    generalize dependent (2 ^ Zpos (digits2_pos m)). intros; lia.
  - rewrite Pos2Z.inj_succ. change (Zpos m~0) with (2 * Zpos m).
    replace (Z.succ (Zpos (digits2_pos m)) - 1) with (Z.succ (Zpos (digits2_pos m) - 1)) by lia.
    rewrite !Z.pow_succ_r by lia.
    generalize dependent (2 ^ (Zpos (digits2_pos m) - 1)).
    generalize dependent (2 ^ Zpos (digits2_pos m)). intros; lia.
  - cbn. lia.
Qed.

Lemma digits2_pos_le m n : Zpos m < 2 ^ n -> Zpos (digits2_pos m) <= n.
Proof.
  intros H. destruct (digits2_pos_bounds m) as [Hlo _].
  destruct (Z.le_gt_cases (Zpos (digits2_pos m)) n) as [|Hgt]; [assumption|].
  assert (0 <= n) by (destruct n; try lia; cbn in H; lia).
  assert (2 ^ n <= 2 ^ (Zpos (digits2_pos m) - 1)) by (apply Z.pow_le_mono_r; lia).
  lia.
Qed.

Lemma shr_1_m mrs : 0 <= shr_m mrs -> shr_m (shr_1 mrs) = shr_m mrs / 2.
Proof.
  destruct mrs as [m r s]; cbn [shr_m]. intros Hm.
  destruct m as [|[p|p|]|p]; cbn [shr_1 shr_m]; try lia; try reflexivity.
  - change (Zpos p~1) with (2 * Zpos p + 1). apply Z.div_unique with (r := 1); lia.
  - change (Zpos p~0) with (2 * Zpos p). apply Z.div_unique with (r := 0); lia.
Qed.

Lemma shr_m_iter p : forall mrs, 0 <= shr_m mrs ->
  shr_m (iter_pos shr_1 p mrs) = shr_m mrs / 2 ^ Zpos p.
Proof.
  induction p as [p IH | p IH | ]; intros mrs Hm; cbn [iter_pos].
  - assert (H1 : 0 <= shr_m (shr_1 mrs)) by (rewrite shr_1_m by assumption; apply Z.div_pos; lia).
    assert (H2 : 0 <= shr_m (iter_pos shr_1 p (shr_1 mrs)))
      by (rewrite IH by assumption; apply Z.div_pos; lia).
    rewrite IH, IH, shr_1_m by assumption.
    rewrite !Z.div_div by lia.
    change (Zpos p~1) with (2 * Zpos p + 1). f_equal.
    replace (2 * Zpos p + 1) with (1 + Zpos p + Zpos p) by lia.
    rewrite !Z.pow_add_r by lia. lia.
  - assert (H2 : 0 <= shr_m (iter_pos shr_1 p mrs))
      by (rewrite IH by assumption; apply Z.div_pos; lia).
    rewrite IH, IH by assumption.
    rewrite !Z.div_div by lia.
    change (Zpos p~0) with (2 * Zpos p). f_equal.
    replace (2 * Zpos p) with (Zpos p + Zpos p) by lia.
    rewrite !Z.pow_add_r by lia. lia.
  - rewrite shr_1_m by assumption. reflexivity.
Qed.

Lemma round_nearest_even_bounds m l :
  m <= round_nearest_even m l <= m + 1.
Proof.
  destruct l as [|[]]; cbn [round_nearest_even]; try lia.
  destruct (Z.even m); lia.
Qed.

Lemma Zdigits2_le m n : 0 <= n -> 0 <= m < 2 ^ n -> Zdigits2 m <= n.
Proof.
  intros Hn [Hm Hlt]. destruct m as [|p|p]; cbn [Zdigits2]; try lia.
  now apply digits2_pos_le.
Qed.

(** [shr_fexp] on an exact nonnegative mantissa: either nothing moves, or
    the mantissa is divided by the power of two that brings the exponent
    to [fexp]. *)
Lemma shr_fexp_exact m e :
  0 <= m ->
  (fexp prec emax (Zdigits2 m + e) <= e /\
   shr_fexp prec emax m e loc_Exact = (Build_shr_record m false false, e)) \/
  (e < fexp prec emax (Zdigits2 m + e) /\
   exists mrs, shr_fexp prec emax m e loc_Exact = (mrs, fexp prec emax (Zdigits2 m + e)) /\
               shr_m mrs = m / 2 ^ (fexp prec emax (Zdigits2 m + e) - e)).
Proof.
  intros Hm. unfold shr_fexp. cbn [shr_record_of_loc].
  destruct (fexp prec emax (Zdigits2 m + e) - e) as [|k|k] eqn:Hk; cbn [shr].
  - left. split; [lia | reflexivity].
  - right. split; [lia|]. eexists. split.
    + f_equal. lia.
    + rewrite shr_m_iter by assumption. reflexivity.
  - left. split; [lia | reflexivity].
Qed.

Lemma pow2_div_le m q k :
  0 <= k <= q -> 0 <= m <= 2 ^ q -> m / 2 ^ k <= 2 ^ (q - k).
Proof.
  intros Hk Hm.
  assert (H2k : 0 < 2 ^ k) by (apply Z.pow_pos_nonneg; lia).
  replace (2 ^ (q - k)) with (2 ^ q / 2 ^ k).
  - apply Z.div_le_mono; lia.
  - replace q with ((q - k) + k) at 1 by lia.
    rewrite Z.pow_add_r by lia. apply Z.div_mul. lia.
Qed.

(** Rounding to nearest never crosses a power of two: a positive value
    below [2 ^ D] rounds to zero or to a finite double of value at most
    [2 ^ D]. *)
Lemma binary_round_aux_bound s mx ex D :
  Zpos (digits2_pos mx) + ex <= D -> -1074 <= D <= 972 ->
  binary_round_aux prec emax s (Zpos mx) ex loc_Exact = S754_zero s \/
  exists m e,
    binary_round_aux prec emax s (Zpos mx) ex loc_Exact = S754_finite s m e /\
    -1074 <= e <= D /\ Zpos m <= 2 ^ (D - e).
Proof.
  intros HD HDr. unfold binary_round_aux.
  pose proof (digits2_pos_bounds mx) as [_ Hmx].
  set (d := Zpos (digits2_pos mx)) in *.
  assert (Hd : 1 <= d) by (subst d; lia).
  destruct (shr_fexp_exact (Zpos mx) ex) as [[Hle Heq] | [Hlt [mrs [Heq Hm]]]]; [lia| |];
    cbn [Zdigits2] in *; fold d in Hle || fold d in Hlt; rewrite Heq; clear Heq.
  - (* the mantissa already fits *)
    cbn [shr_m loc_of_shr_record round_nearest_even].
    destruct (shr_fexp_exact (Zpos mx) ex) as [[_ Heq] | [Hlt _]]; [lia| |];
      cbn [Zdigits2] in *; [|fold d in Hlt; lia].
    rewrite Heq. cbn [shr_m]. rewrite fexp_eq in Hle.
    replace (ex <=? emax - prec) with true by (symmetry; apply Z.leb_le; cbn; lia).
    right. exists mx, ex. split; [reflexivity|]. split; [lia|].
    apply Z.lt_le_incl. eapply Z.lt_le_trans; [exact Hmx|]. apply Z.pow_le_mono_r; lia.
  - (* the mantissa is shifted right, then rounded *)
    fold d in Hm. fold d. set (e1 := fexp prec emax (d + ex)) in *.
    assert (He1 : e1 = Z.max (d + ex - 53) (-1074)) by (subst e1; apply fexp_eq).
    set (q := Z.max (d - (e1 - ex)) 0).
    pose proof (round_nearest_even_bounds (shr_m mrs) (loc_of_shr_record mrs)) as Hr.
    set (m1 := round_nearest_even (shr_m mrs) (loc_of_shr_record mrs)) in *.
    assert (Hm' : 0 <= shr_m mrs < 2 ^ q).
    { rewrite Hm. split; [apply Z.div_pos; [lia | apply Z.pow_pos_nonneg; lia]|].
      apply Z.div_lt_upper_bound; [apply Z.pow_pos_nonneg; lia|].
      rewrite <- Z.pow_add_r by lia.
      eapply Z.lt_le_trans; [exact Hmx|]. apply Z.pow_le_mono_r; lia. }
    assert (Hm1 : 0 <= m1 <= 2 ^ q) by lia.
    assert (Hq : 0 <= q <= 53) by lia.
    assert (He1q : e1 + q <= D) by lia.
    assert (Hd1 : Zdigits2 m1 <= q + 1).
    { apply Zdigits2_le; [lia|]. rewrite Z.pow_add_r, Z.pow_1_r by lia.
      assert (0 < 2 ^ q) by (apply Z.pow_pos_nonneg; lia). lia. }
    destruct (shr_fexp_exact m1 e1) as [[Hle2 Heq2] | [Hlt2 [mrs2 [Heq2 Hm2]]]]; [lia| |];
      rewrite Heq2; clear Heq2.
    + cbn [shr_m]. destruct m1 as [|p1|p1]; [left; reflexivity | | lia].
      replace (e1 <=? emax - prec) with true by (symmetry; apply Z.leb_le; cbn; lia).
      right. exists p1, e1. split; [reflexivity|]. split; [lia|].
      eapply Z.le_trans; [apply Hm1|]. apply Z.pow_le_mono_r; lia.
    + set (e2 := fexp prec emax (Zdigits2 m1 + e1)) in *.
      assert (He2 : e2 = Z.max (Zdigits2 m1 + e1 - 53) (-1074)) by (subst e2; apply fexp_eq).
      rewrite Hm2.
      destruct (m1 / 2 ^ (e2 - e1)) as [|p2|p2] eqn:Hp2; [left; reflexivity | |].
      * assert (Hk2 : e2 - e1 <= q).
        { destruct (Z.le_gt_cases (e2 - e1) q) as [|Hgt]; [assumption|].
          assert (m1 / 2 ^ (e2 - e1) = 0); [|lia].
          apply Z.div_small. split; [lia|].
          eapply Z.le_lt_trans; [apply Hm1|]. apply Z.pow_lt_mono_r; lia. }
        replace (e2 <=? emax - prec) with true by (symmetry; apply Z.leb_le; cbn; lia).
        right. exists p2, e2. split; [reflexivity|]. split; [lia|].
        rewrite <- Hp2. eapply Z.le_trans; [apply pow2_div_le with (q := q); lia|].
        apply Z.pow_le_mono_r; lia.
      * assert (0 <= m1 / 2 ^ (e2 - e1)); [|lia].
        apply Z.div_pos; [lia | apply Z.pow_pos_nonneg; lia].
Qed.

Lemma bounded_inv m e :
  bounded prec emax m e = true ->
  Zpos (digits2_pos m) <= 53 /\ -1074 <= e <= 971 /\
  (Zpos (digits2_pos m) = 53 \/ e = -1074).
Proof.
  unfold bounded, canonical_mantissa. rewrite fexp_eq.
  intros H. apply andb_true_iff in H as [H1 H2].
  apply Z.eqb_eq in H1. apply Z.leb_le in H2. cbn in H2. lia.
Qed.

Lemma shl_align_spec mx ex e' :
  snd (shl_align mx ex e') <= ex /\
  (e' <= ex -> snd (shl_align mx ex e') = e') /\
  Zpos (fst (shl_align mx ex e')) = Zpos mx * 2 ^ (ex - snd (shl_align mx ex e')).
Proof.
  unfold shl_align. destruct (e' - ex) as [|k|k] eqn:Hk; cbn [fst snd].
  - rewrite Z.sub_diag. cbn. lia.
  - rewrite Z.sub_diag. cbn. lia.
  - split; [lia|]. split; [reflexivity|].
    replace (ex - e') with (Zpos k) by lia.
    change (Pos.iter xO mx k) with (shift_pos k mx).
    rewrite shift_pos_correct. change (Z.pow_pos 2 k) with (2 ^ Zpos k). lia.
Qed.

(** [binary_round]: a positive value below [2 ^ D] rounds to at most [2 ^ D]. *)
Lemma binary_round_bound s mx ex D :
  Zpos mx < 2 ^ (D - ex) -> -1074 <= D <= 972 ->
  binary_round prec emax s mx ex = S754_zero s \/
  exists m e,
    binary_round prec emax s mx ex = S754_finite s m e /\
    -1074 <= e <= D /\ Zpos m <= 2 ^ (D - e).
Proof.
  intros Hlt HD. unfold binary_round.
  destruct (shl_align_spec mx ex (fexp prec emax (Zpos (digits2_pos mx) + ex)))
    as (Hle & _ & Hval).
  destruct (shl_align mx ex _) as [mz ez]. cbn [fst snd] in *.
  assert (0 <= D - ex) by (destruct (D - ex); cbn in Hlt; lia).
  apply binary_round_aux_bound; [|assumption].
  cut (Zpos (digits2_pos mz) <= D - ez); [lia|].
  apply digits2_pos_le. rewrite Hval.
  replace (D - ez) with ((D - ex) + (ex - ez)) by lia.
  rewrite Z.pow_add_r by lia.
  apply Z.mul_lt_mono_pos_r; [apply Z.pow_pos_nonneg; lia | assumption].
Qed.

Lemma SFmul_bound sr mr er sc mc ec K :
  Zpos (digits2_pos mr) + er <= K ->
  Zpos (digits2_pos mc) + ec <= 1 ->
  -1075 <= K <= 971 ->
  SFmul prec emax (S754_finite sr mr er) (S754_finite sc mc ec) = S754_zero (xorb sr sc) \/
  exists m e,
    SFmul prec emax (S754_finite sr mr er) (S754_finite sc mc ec)
      = S754_finite (xorb sr sc) m e /\
    -1074 <= e <= K + 1 /\ Zpos m <= 2 ^ (K + 1 - e).
Proof.
  intros Hr Hc HK. cbn [SFmul].
  apply binary_round_aux_bound; [|lia].
  cut (Zpos (digits2_pos (mr * mc)) <= Zpos (digits2_pos mr) + Zpos (digits2_pos mc)); [lia|].
  apply digits2_pos_le. rewrite Pos2Z.inj_mul, Z.pow_add_r by lia.
  destruct (digits2_pos_bounds mr) as [_ H1]. destruct (digits2_pos_bounds mc) as [_ H2].
  apply Z.mul_lt_mono_nonneg; lia.
Qed.

(** The integral part of a finite double whose magnitude is at most
    [2 ^ K]. *)
Lemma shiftl_bound m e K :
  0 <= K -> e <= K -> Zpos m <= 2 ^ (K - e) -> 0 <= Z.shiftl (Zpos m) e <= 2 ^ K.
Proof.
  intros HK He Hm. destruct (Z.le_gt_cases 0 e) as [Hpos|Hneg].
  - rewrite Z.shiftl_mul_pow2 by assumption.
    assert (HK2 : 2 ^ K = 2 ^ (K - e) * 2 ^ e)
      by (rewrite <- Z.pow_add_r by lia; f_equal; lia).
    assert (0 < 2 ^ e) by (apply Z.pow_pos_nonneg; lia). nia.
  - rewrite Z.shiftl_div_pow2 by lia. split.
    + apply Z.div_pos; [lia | apply Z.pow_pos_nonneg; lia].
    + replace (2 ^ K) with (2 ^ ((K - e) - (- e))) by (f_equal; lia).
      apply pow2_div_le; lia.
Qed.

Lemma abs_leb_inv f b mb eb :
  Prim2SF b = S754_finite false mb eb ->
  (abs f <=? b)%float = true ->
  (exists s, Prim2SF f = S754_zero s) \/
  (exists s m e, Prim2SF f = S754_finite s m e /\
                 -1074 <= e <= eb /\ Zpos (digits2_pos m) <= 53).
Proof.
  intros Hb H. rewrite leb_spec, abs_spec, Hb in H.
  pose proof (Prim2SF_valid f) as Hv.
  destruct (Prim2SF f) as [s|s| |s m e]; cbn in H; try discriminate.
  - left. now exists s.
  - right. exists s, m, e. split; [reflexivity|].
    apply bounded_inv in Hv.
    unfold SFleb in H. cbn in H.
    destruct (Z.compare_spec e eb); try discriminate; lia.
Qed.

Lemma checked_small t : -1073741824 <= t <= 1073741824 -> Int.checked t = Some t.
Proof.
  intros H. unfold Int.checked, Int.in_range, Int.min_value, Int.max_value.
  replace (-2147483648 <=? t) with true by (symmetry; apply Z.leb_le; lia).
  replace (t <=? 2147483647) with true by (symmetry; apply Z.leb_le; lia).
  reflexivity.
Qed.

Lemma to_int_mul_bounded r c :
  (abs r <=? 0x1p20)%float = true -> (abs c <=? 1)%float = true ->
  exists t, Double.to_int (r * c) = Some t /\ -4194304 <= t <= 4194304.
Proof.
  intros Hr Hc.
  apply abs_leb_inv with (mb := 4503599627370496%positive) (eb := -32) in Hr; [|reflexivity].
  apply abs_leb_inv with (mb := 4503599627370496%positive) (eb := -52) in Hc; [|reflexivity].
  unfold Double.to_int, Double.truncate. rewrite mul_spec. unfold SF64mul.
  destruct Hr as [[sr Hr] | (sr & mr & er & Hr & Her & Hdr)];
    destruct Hc as [[sc Hc] | (sc & mc & ec & Hc & Hec & Hdc)]; rewrite Hr, Hc.
  - exists 0. cbn. split; [reflexivity | lia].
  - exists 0. cbn. split; [reflexivity | lia].
  - exists 0. cbn. split; [reflexivity | lia].
  - destruct (SFmul_bound sr mr er sc mc ec 21) as [Hz | (m & e & Hz & He & Hm)];
      try lia; rewrite Hz.
    + exists 0. cbn. split; [reflexivity | lia].
    + pose proof (shiftl_bound m e 22 ltac:(lia) ltac:(lia) Hm) as Hs.
      change (2 ^ 22) with 4194304 in Hs.
      exists (cond_Zopp (xorb sr sc) (Z.shiftl (Zpos m) e)). cbn [obind].
      split; [apply checked_small|]; destruct (xorb sr sc); cbn [cond_Zopp]; lia.
Qed.

Lemma Prim2SF_zero : Prim2SF 0 = S754_zero false.
Proof. reflexivity. Qed.

Lemma Prim2SF_2p52 : Prim2SF 0x1p52 = S754_finite false 4503599627370496 0.
Proof. reflexivity. Qed.

Lemma angle_ok_inv a :
  angle_ok a = true ->
  (exists s, Prim2SF a = S754_zero s) \/
  (exists m e, Prim2SF a = S754_finite false m e /\
               Zpos (digits2_pos m) <= 53 /\ -1074 <= e /\
               (e < 0 \/ a = 0x1p52%float)).
Proof.
  unfold angle_ok. intros H. apply andb_true_iff in H as [H0 H1].
  rewrite leb_spec in H0, H1. rewrite Prim2SF_zero in H0. rewrite Prim2SF_2p52 in H1.
  pose proof (Prim2SF_valid a) as Hv.
  destruct (Prim2SF a) as [s|s| |s m e] eqn:Ha.
  - left. now exists s.
  - destruct s; discriminate.
  - discriminate.
  - right. destruct s; [discriminate|]. exists m, e. split; [reflexivity|].
    apply bounded_inv in Hv. destruct Hv as (Hd & He & Hc).
    split; [assumption|]. split; [lia|].
    unfold SFleb in H1. cbn [SFcompare] in H1.
    destruct (Z.compare_spec e 0) as [He0|He0|He0]; try discriminate; [|left; assumption].
    right. apply Prim2SF_inj. rewrite Ha, Prim2SF_2p52.
    subst e. f_equal.
    destruct Hc as [Hc|Hc]; [|lia].
    destruct (digits2_pos_bounds m) as [Hlo _]. rewrite Hc in Hlo.
    change (2 ^ (53 - 1)) with 4503599627370496 in Hlo.
    rewrite Pos.compare_cont_spec in H1. cbn [Pos.switch_Eq] in H1.
    rewrite Pos2Z.inj_compare in H1.
    destruct (Z.compare_spec (Zpos m) 4503599627370496) as [Hm|Hm|Hm];
      [congruence | lia | discriminate H1].
Qed.

Lemma Prim2SF_quarter : Prim2SF 0.25 = S754_finite false 4503599627370496 (-54).
Proof. reflexivity. Qed.

Lemma speed_ok_inv s :
  speed_ok s = true ->
  (exists m e, Prim2SF s = S754_finite false m e /\
               Zpos (digits2_pos m) + e <= -1 /\ -1074 <= e) /\
  (0x1p52 + s)%float = 0x1p52%float.
Proof.
  unfold speed_ok. intros H.
  apply andb_true_iff in H as [H Habs]. apply andb_true_iff in H as [H0 H1].
  split; [|now apply Leibniz.eqb_spec].
  rewrite ltb_spec, Prim2SF_zero in H0. rewrite leb_spec, Prim2SF_quarter in H1.
  pose proof (Prim2SF_valid s) as Hv.
  destruct (Prim2SF s) as [sg|sg| |sg m e] eqn:Hs; try discriminate.
  - destruct sg; discriminate.
  - destruct sg; [discriminate|]. exists m, e. split; [reflexivity|].
    apply bounded_inv in Hv. destruct Hv as (Hd & He & _).
    unfold SFleb in H1. cbn [SFcompare] in H1.
    destruct (Z.compare_spec e (-54)); try discriminate; lia.
Qed.

Lemma angle_ok_intro a m e :
  Prim2SF a = S754_zero false \/
  (Prim2SF a = S754_finite false m e /\ (e < 0 \/ (e = 0 /\ Zpos m <= 4503599627370496))) ->
  angle_ok a = true.
Proof.
  unfold angle_ok. rewrite !leb_spec, Prim2SF_zero, Prim2SF_2p52.
  intros [Ha | [Ha He]]; rewrite Ha; [reflexivity|].
  unfold SFleb. cbn [SFcompare andb].
  destruct He as [He | [He Hm]].
  - destruct (Z.compare_spec e 0); try lia; reflexivity.
  - subst e. cbn [Z.compare]. rewrite Pos.compare_cont_spec. cbn [Pos.switch_Eq].
    rewrite Pos2Z.inj_compare.
    destruct (Z.compare_spec (Zpos m) 4503599627370496); try lia; reflexivity.
Qed.

(** The sum of an angle below [2 ^ 52] and a speed below one half is
    below [2 ^ 52] before rounding, so it rounds to at most [2 ^ 52]. *)
Lemma SFadd_angle_speed m e ms es :
  Zpos (digits2_pos m) <= 53 -> -1074 <= e < 0 ->
  Zpos (digits2_pos ms) + es <= -1 -> -1074 <= es ->
  SFadd prec emax (S754_finite false m e) (S754_finite false ms es) = S754_zero false \/
  exists m' e',
    SFadd prec emax (S754_finite false m e) (S754_finite false ms es)
      = S754_finite false m' e' /\
    -1074 <= e' <= 52 /\ Zpos m' <= 2 ^ (52 - e').
Proof.
  intros Hd He Hds Hes. cbn [SFadd cond_Zopp].
  set (ez := Z.min e es).
  destruct (shl_align_spec m e ez) as (_ & H1e & H1); specialize (H1e ltac:(lia)).
  destruct (shl_align_spec ms es ez) as (_ & H2e & H2); specialize (H2e ltac:(lia)).
  rewrite H1e in H1. rewrite H2e in H2.
  set (p1 := fst (shl_align m e ez)) in *. set (p2 := fst (shl_align ms es ez)) in *.
  change (Zpos p1 + Zpos p2) with (Zpos (p1 + p2)). cbn [binary_normalize].
  apply binary_round_bound; [|lia].
  rewrite Pos2Z.inj_add, H1, H2.
  destruct (digits2_pos_bounds m) as [_ Hm]. destruct (digits2_pos_bounds ms) as [_ Hms].
  set (P := 2 ^ (-1 - ez)).
  assert (HP : 0 < P) by (apply Z.pow_pos_nonneg; lia).
  assert (Hm53 : Zpos m < 2 ^ 53)
    by (eapply Z.lt_le_trans; [exact Hm | apply Z.pow_le_mono_r; lia]).
  change (2 ^ 53) with 9007199254740992 in Hm53.
  assert (Ha : 0 < 2 ^ (e - ez) <= P)
    by (split; [apply Z.pow_pos_nonneg | apply Z.pow_le_mono_r]; lia).
  assert (Hb : 0 < 2 ^ (es - ez)) by (apply Z.pow_pos_nonneg; lia).
  assert (Hc : 2 ^ Zpos (digits2_pos ms) * 2 ^ (es - ez) <= P).
  { rewrite <- Z.pow_add_r by lia. apply Z.pow_le_mono_r; lia. }
  assert (HT : 2 ^ (52 - ez) = 9007199254740992 * P).
  { unfold P. change 9007199254740992 with (2 ^ 53).
    rewrite <- Z.pow_add_r by lia. f_equal. lia. }
  rewrite HT.
  assert (Zpos m * 2 ^ (e - ez) <= 9007199254740991 * P) by nia.
  assert (Zpos ms * 2 ^ (es - ez) < P) by nia.
  lia.
Qed.

Lemma angle_step a s :
  angle_ok a = true -> speed_ok s = true -> angle_ok (a + s) = true.
Proof.
  intros Ha Hs.
  apply speed_ok_inv in Hs as [(ms & es & Hs & Hds & Hes) Habs].
  apply angle_ok_inv in Ha as [[sg Ha] | (m & e & Ha & Hd & He & [Hneg | Htop])].
  - (* the angle is zero: the sum is the speed *)
    apply angle_ok_intro with (m := ms) (e := es). right.
    rewrite add_spec, Ha, Hs. split; [reflexivity | lia].
  - pose proof (Prim2SF_valid (a + s)) as Hv.
    rewrite add_spec, Ha, Hs in Hv. unfold SF64add in Hv.
    destruct (SFadd_angle_speed m e ms es) as [Hz | (m' & e' & Hz & He' & Hm')]; try lia;
      rewrite Hz in Hv.
    + apply angle_ok_intro with (m := 1%positive) (e := 0). left.
      rewrite add_spec, Ha, Hs. exact Hz.
    + apply angle_ok_intro with (m := m') (e := e'). right.
      rewrite add_spec, Ha, Hs. split; [exact Hz|].
      apply bounded_inv in Hv. destruct Hv as (_ & _ & Hc).
      destruct (Z.compare_spec e' 0) as [E|E|E].
      * right. subst e'. split; [reflexivity | exact Hm'].
      * left. assumption.
      * exfalso. destruct Hc as [Hc|Hc]; [|lia].
        destruct (digits2_pos_bounds m') as [Hlo _]. rewrite Hc in Hlo.
        assert (2 ^ (52 - e') < 2 ^ (53 - 1)) by (apply Z.pow_lt_mono_r; lia).
        lia.
  - rewrite Htop, Habs. reflexivity.
Qed.

(** ** Monotone rounding *)

Lemma shr_1_double c :
  0 <= c -> shr_1 (Build_shr_record (2 * c) false false) = Build_shr_record c false false.
Proof.
  intros Hc. destruct c as [|q|q]; [reflexivity | reflexivity | lia].
Qed.

(** Shifting out zeros is exact: nothing is remembered in the round and
    sticky bits. *)
Lemma iter_shr_1_exact p : forall c,
  0 <= c ->
  iter_pos shr_1 p (Build_shr_record (c * 2 ^ Zpos p) false false)
  = Build_shr_record c false false.
Proof.
  induction p as [p IH | p IH | ]; intros c Hc; cbn [iter_pos].
  - assert (H2 : 0 < 2 ^ Zpos p) by (apply Z.pow_pos_nonneg; lia).
    replace (c * 2 ^ Zpos p~1) with (2 * ((c * 2 ^ Zpos p) * 2 ^ Zpos p)).
    + rewrite shr_1_double by nia. rewrite IH by nia. apply IH. assumption.
    + change (Zpos p~1) with (2 * Zpos p + 1).
      replace (2 * Zpos p + 1) with (1 + Zpos p + Zpos p) by lia.
      rewrite !Z.pow_add_r by lia. change (2 ^ 1) with 2. ring.
  - assert (H2 : 0 < 2 ^ Zpos p) by (apply Z.pow_pos_nonneg; lia).
    replace (c * 2 ^ Zpos p~0) with ((c * 2 ^ Zpos p) * 2 ^ Zpos p).
    + rewrite IH by nia. apply IH. assumption.
    + change (Zpos p~0) with (2 * Zpos p).
      replace (2 * Zpos p) with (Zpos p + Zpos p) by lia.
      rewrite !Z.pow_add_r by lia. ring.
  - change (2 ^ 1) with 2. rewrite Z.mul_comm. now apply shr_1_double.
Qed.

Lemma shr_fexp_shift m e :
  e < fexp prec emax (Zdigits2 m + e) ->
  shr_fexp prec emax m e loc_Exact
  = (iter_pos shr_1 (Z.to_pos (fexp prec emax (Zdigits2 m + e) - e))
       (Build_shr_record m false false),
     fexp prec emax (Zdigits2 m + e)).
Proof.
  intros H. unfold shr_fexp. cbn [shr_record_of_loc].
  destruct (fexp prec emax (Zdigits2 m + e) - e) as [|k|k] eqn:Hk; try lia.
  cbn [shr Z.to_pos]. f_equal. lia.
Qed.

(** Rounding to nearest is monotone at representable numbers: a positive
    value that is at most the double [(mb, eb)] rounds to at most that
    double. *)
Lemma binary_round_aux_le s mx ex mb eb :
  bounded prec emax mb eb = true ->
  ex <= eb -> Zpos mx <= Zpos mb * 2 ^ (eb - ex) ->
  binary_round_aux prec emax s (Zpos mx) ex loc_Exact = S754_zero s \/
  exists m e,
    binary_round_aux prec emax s (Zpos mx) ex loc_Exact = S754_finite s m e /\
    -1074 <= e <= eb /\ Zpos m <= Zpos mb * 2 ^ (eb - e).
Proof.
  intros Hb Hex Hle. apply bounded_inv in Hb as Hb'. destruct Hb' as (HdB & HeB & _).
  assert (Hcan : fexp prec emax (Zpos (digits2_pos mb) + eb) = eb).
  { unfold bounded, canonical_mantissa in Hb. apply andb_true_iff in Hb as [Hb _].
    now apply Z.eqb_eq in Hb. }
  rewrite fexp_eq in Hcan.
  destruct (digits2_pos_bounds mb) as [_ HmB].
  set (dB := Zpos (digits2_pos mb)) in *.
  (* a bound below [2 ^ (dB + eb - e)] for mantissas at exponent [e] *)
  assert (Hup : forall e, e <= eb -> Zpos mb * 2 ^ (eb - e) < 2 ^ (dB + eb - e)).
  { intros e He. replace (dB + eb - e) with (dB + (eb - e)) by lia.
    rewrite Z.pow_add_r by lia.
    apply Z.mul_lt_mono_pos_r; [apply Z.pow_pos_nonneg; lia | assumption]. }
  assert (Hd : Zpos (digits2_pos mx) <= dB + eb - ex).
  { apply digits2_pos_le. eapply Z.le_lt_trans; [exact Hle | now apply Hup]. }
  set (d := Zpos (digits2_pos mx)) in *.
  assert (Hd1 : 1 <= d) by (subst d; lia).
  unfold binary_round_aux.
  destruct (Z.le_gt_cases (fexp prec emax (Zdigits2 (Zpos mx) + ex)) ex) as [Hk|Hk].
  - (* nothing to shift *)
    destruct (shr_fexp_exact (Zpos mx) ex) as [[_ Heq] | [Hlt _]]; [lia| |lia].
    rewrite Heq. cbn [shr_m loc_of_shr_record round_nearest_even]. rewrite Heq.
    cbn [shr_m]. cbn [Zdigits2] in Hk. fold d in Hk. rewrite fexp_eq in Hk.
    replace (ex <=? emax - prec) with true by (symmetry; apply Z.leb_le; cbn; lia).
    right. exists mx, ex. split; [reflexivity|]. split; [lia | assumption].
  - rewrite (shr_fexp_shift _ _ Hk). cbn [Zdigits2] in *. fold d in Hk |- *.
    set (e1 := fexp prec emax (d + ex)) in *.
    assert (He1 : e1 = Z.max (d + ex - 53) (-1074)) by (subst e1; apply fexp_eq).
    assert (He1b : e1 <= eb) by lia.
    set (k := e1 - ex) in *.
    set (N := Zpos mb * 2 ^ (eb - e1)).
    assert (H2k : 0 < 2 ^ k) by (apply Z.pow_pos_nonneg; lia).
    assert (HN : Zpos mb * 2 ^ (eb - ex) = N * 2 ^ k).
    { unfold N. rewrite <- Z.mul_assoc, <- Z.pow_add_r by lia. do 2 f_equal. lia. }
    assert (HN0 : 0 <= N) by (unfold N; apply Z.mul_nonneg_nonneg; [lia | apply Z.pow_nonneg; lia]).
    set (mrs := iter_pos shr_1 (Z.to_pos k) (Build_shr_record (Zpos mx) false false)).
    assert (Hmrs : shr_m mrs = Zpos mx / 2 ^ k).
    { unfold mrs. rewrite shr_m_iter by (cbn; lia). cbn [shr_m].
      rewrite Z2Pos.id by lia. reflexivity. }
    assert (Hm1 : 0 <= round_nearest_even (shr_m mrs) (loc_of_shr_record mrs) <= N).
    { pose proof (round_nearest_even_bounds (shr_m mrs) (loc_of_shr_record mrs)) as Hr.
      assert (Hm0 : 0 <= shr_m mrs) by (rewrite Hmrs; apply Z.div_pos; lia).
      assert (HmN : shr_m mrs <= N).
      { rewrite Hmrs. apply Z.div_le_upper_bound; [lia|]. rewrite Z.mul_comm. lia. }
      split; [lia|].
      destruct (Z.eq_dec (shr_m mrs) N) as [E|E]; [|lia].
      (* the value is the bound itself: the shift is exact *)
      assert (Hx : Zpos mx = N * 2 ^ k).
      { rewrite Hmrs in E.
        pose proof (Z.mul_div_le (Zpos mx) (2 ^ k) H2k) as Hlo. rewrite E in Hlo. lia. }
      unfold mrs. rewrite Hx.
      replace (2 ^ k) with (2 ^ Zpos (Z.to_pos k)) by (rewrite Z2Pos.id by lia; reflexivity).
      rewrite iter_shr_1_exact by assumption.
      cbn [shr_m loc_of_shr_record round_nearest_even]. lia. }
    set (m1 := round_nearest_even (shr_m mrs) (loc_of_shr_record mrs)) in *.
    assert (Hd1' : Zdigits2 m1 <= dB + eb - e1).
    { apply Zdigits2_le; [lia|]. split; [lia|].
      eapply Z.le_lt_trans; [apply Hm1 | now apply Hup]. }
    destruct (shr_fexp_exact m1 e1) as [[Hle2 Heq2] | [Hlt2 [mrs2 [Heq2 Hm2]]]]; [lia| |];
      rewrite Heq2; clear Heq2.
    + cbn [shr_m]. destruct m1 as [|p1|p1]; [left; reflexivity | | lia].
      replace (e1 <=? emax - prec) with true by (symmetry; apply Z.leb_le; cbn; lia).
      right. exists p1, e1. split; [reflexivity|]. split; [lia | apply Hm1].
    + set (e2 := fexp prec emax (Zdigits2 m1 + e1)) in *.
      assert (He2 : e2 = Z.max (Zdigits2 m1 + e1 - 53) (-1074)) by (subst e2; apply fexp_eq).
      assert (He2b : e2 <= eb) by lia.
      rewrite Hm2.
      assert (Hdiv : m1 / 2 ^ (e2 - e1) <= Zpos mb * 2 ^ (eb - e2)).
      { apply Z.div_le_upper_bound; [apply Z.pow_pos_nonneg; lia|].
        rewrite Z.mul_comm, <- Z.mul_assoc, <- Z.pow_add_r by lia.
        replace (eb - e2 + (e2 - e1)) with (eb - e1) by lia. apply Hm1. }
      destruct (m1 / 2 ^ (e2 - e1)) as [|p2|p2] eqn:Hp2; [left; reflexivity | |].
      * replace (e2 <=? emax - prec) with true by (symmetry; apply Z.leb_le; cbn; lia).
        right. exists p2, e2. split; [reflexivity|]. split; [lia | assumption].
      * assert (0 <= m1 / 2 ^ (e2 - e1)); [|lia].
        apply Z.div_pos; [lia | apply Z.pow_pos_nonneg; lia].
Qed.

Lemma Prim2SF_one : Prim2SF 1 = S754_finite false 4503599627370496 (-52).
Proof. reflexivity. Qed.

(** A double of magnitude at most one. *)
Lemma abs_le_one_inv c :
  (abs c <=? 1)%float = true ->
  (exists s, Prim2SF c = S754_zero s) \/
  (exists s m e, Prim2SF c = S754_finite s m e /\
                 -1074 <= e <= -52 /\ Zpos m <= 2 ^ (- e)).
Proof.
  intros H. rewrite FloatAxioms.leb_spec, abs_spec, Prim2SF_one in H.
  pose proof (Prim2SF_valid c) as Hv.
  destruct (Prim2SF c) as [s|s| |s m e]; cbn [SFabs] in H; try discriminate.
  - left. now exists s.
  - right. exists s, m, e. split; [reflexivity|].
    apply bounded_inv in Hv. destruct Hv as (Hd & He & _).
    destruct (digits2_pos_bounds m) as [_ Hm].
    unfold SFleb in H. cbn [SFcompare] in H.
    destruct (Z.compare_spec e (-52)) as [E|E|E]; try discriminate.
    + subst e. split; [lia|]. change (2 ^ (- -52)) with 4503599627370496.
      rewrite Pos.compare_cont_spec in H. cbn [Pos.switch_Eq] in H.
      rewrite Pos2Z.inj_compare in H.
      destruct (Z.compare_spec (Zpos m) 4503599627370496); try discriminate; lia.
    + split; [lia|]. apply Z.lt_le_incl. eapply Z.lt_le_trans; [exact Hm|].
      apply Z.pow_le_mono_r; lia.
Qed.

(** The product of a double and a factor of magnitude at most one has at
    most the magnitude of the double. *)
Lemma SFmul_le sr mr er sc mc ec :
  bounded prec emax mr er = true ->
  ec <= 0 -> Zpos mc <= 2 ^ (- ec) ->
  SFmul prec emax (S754_finite sr mr er) (S754_finite sc mc ec) = S754_zero (xorb sr sc) \/
  exists m e,
    SFmul prec emax (S754_finite sr mr er) (S754_finite sc mc ec)
      = S754_finite (xorb sr sc) m e /\
    -1074 <= e <= er /\ Zpos m <= Zpos mr * 2 ^ (er - e).
Proof.
  intros Hb Hec Hmc. cbn [SFmul].
  apply binary_round_aux_le; [assumption | lia |].
  replace (er - (er + ec)) with (- ec) by lia.
  rewrite Pos2Z.inj_mul. apply Z.mul_le_mono_nonneg_l; lia.
Qed.

Lemma shiftl_le a b e : a <= b -> Z.shiftl a e <= Z.shiftl b e.
Proof.
  intros H. destruct (Z.le_gt_cases 0 e) as [He|He].
  - rewrite !Z.shiftl_mul_pow2 by assumption.
    apply Z.mul_le_mono_nonneg_r; [apply Z.pow_nonneg; lia | assumption].
  - rewrite !Z.shiftl_div_pow2 by lia.
    apply Z.div_le_mono; [apply Z.pow_pos_nonneg; lia | assumption].
Qed.

(** The integral part is monotone: a smaller double has a smaller
    integral part. *)
Lemma shiftl_le_shiftl m e mb eb :
  e <= eb -> Zpos m <= Zpos mb * 2 ^ (eb - e) ->
  0 <= Z.shiftl (Zpos m) e <= Z.shiftl (Zpos mb) eb.
Proof.
  intros He Hm. split.
  - apply Z.shiftl_nonneg. lia.
  - assert (E : Z.shiftl (Zpos mb) eb = Z.shiftl (Zpos mb * 2 ^ (eb - e)) e).
    { rewrite <- Z.shiftl_mul_pow2 by lia. rewrite Z.shiftl_shiftl by lia.
      f_equal. lia. }
    rewrite E. now apply shiftl_le.
Qed.

(** [static_cast<int>(r * c)] for a radius [r] of magnitude at most
    [2 ^ 20] and a factor of magnitude at most one: the conversion is
    defined and its result has at most the magnitude of the integral part of
    the radius. *)
Lemma to_int_mul_within r c R :
  (abs r <=? 0x1p20)%float = true -> (abs c <=? 1)%float = true ->
  Double.truncate (abs r) = Some R ->
  exists t, Double.to_int (r * c) = Some t /\ - R <= t <= R.
Proof.
  intros Hr Hc HR.
  pose proof (Prim2SF_valid r) as Hv.
  apply abs_leb_inv with (mb := 4503599627370496%positive) (eb := -32) in Hr; [|reflexivity].
  apply abs_le_one_inv in Hc.
  unfold Double.truncate in HR. rewrite abs_spec in HR.
  unfold Double.to_int, Double.truncate. rewrite mul_spec. unfold SF64mul.
  destruct Hr as [[sr Hr] | (sr & mr & er & Hr & Her & Hdr)];
    destruct Hc as [[sc Hc] | (sc & mc & ec & Hc & Hec & Hmc)];
    rewrite Hr in *; rewrite Hc; cbn [SFabs cond_Zopp] in HR; inversion HR; subst R.
  - exists 0. cbn. split; [reflexivity | lia].
  - exists 0. cbn. split; [reflexivity | lia].
  - exists 0. cbn. split; [reflexivity|].
    pose proof (Z.shiftl_nonneg (Zpos mr) er). lia.
  - destruct (SFmul_le sr mr er sc mc ec Hv) as [Hz | (m & e & Hz & He & Hm)];
      try lia; rewrite Hz.
    + exists 0. cbn. split; [reflexivity|].
      pose proof (Z.shiftl_nonneg (Zpos mr) er). lia.
    + pose proof (shiftl_le_shiftl m e mr er ltac:(lia) Hm) as Hs.
      assert (Hr20 : Z.shiftl (Zpos mr) er <= 2 ^ 21).
      { apply shiftl_bound; try lia.
        destruct (digits2_pos_bounds mr) as [_ Hlt].
        apply Z.lt_le_incl. eapply Z.lt_le_trans; [exact Hlt|].
        apply Z.pow_le_mono_r; lia. }
      change (2 ^ 21) with 2097152 in Hr20.
      exists (cond_Zopp (xorb sr sc) (Z.shiftl (Zpos m) e)). cbn [obind].
      split; [apply checked_small|]; destruct (xorb sr sc); cbn [cond_Zopp]; lia.
Qed.

(** ** Signs *)

Lemma binary_round_aux_opp s m e l :
  SFopp (binary_round_aux prec emax s m e l) = binary_round_aux prec emax (negb s) m e l.
Proof.
  unfold binary_round_aux.
  destruct (shr_fexp prec emax m e l) as [mrs' e'].
  destruct (shr_fexp prec emax _ e' loc_Exact) as [mrs'' e''].
  destruct (shr_m mrs''); [reflexivity | | reflexivity].
  now destruct (e'' <=? emax - prec).
Qed.

Lemma SFmul_opp_r a b :
  SFmul prec emax a (SFopp b) = SFopp (SFmul prec emax a b).
Proof.
  destruct a as [sa|sa| |sa ma ea], b as [sb|sb| |sb mb eb]; cbn [SFmul SFopp];
    rewrite ?binary_round_aux_opp; try reflexivity;
    try (now destruct sa, sb).
Qed.

(** Multiplication by the opposite factor gives the opposite double. *)
Lemma mul_opp_r (a b : float) : (a * - b = - (a * b))%float.
Proof.
  apply Prim2SF_inj. rewrite mul_spec, !opp_spec, mul_spec. apply SFmul_opp_r.
Qed.

(** Rounding toward zero commutes with the change of sign. *)
Lemma truncate_opp f :
  Double.truncate (- f) = option_map Z.opp (Double.truncate f).
Proof.
  unfold Double.truncate. rewrite opp_spec.
  destruct (Prim2SF f) as [s|s| |s m e]; cbn [SFopp option_map]; try reflexivity.
  f_equal. destruct s; cbn [negb cond_Zopp]; lia.
Qed.

(** Rounding to nearest is monotone at representable numbers, from below:
    a value that is at least the double [(mb, eb)] rounds to at least that
    double (or overflows). *)
Lemma binary_round_aux_ge s mx ex mb eb :
  bounded prec emax mb eb = true ->
  ex <= eb -> Zpos mb * 2 ^ (eb - ex) <= Zpos mx ->
  binary_round_aux prec emax s (Zpos mx) ex loc_Exact = S754_infinity s \/
  exists m e,
    binary_round_aux prec emax s (Zpos mx) ex loc_Exact = S754_finite s m e /\
    eb <= e /\ Zpos mb <= Zpos m * 2 ^ (e - eb).
Proof.
  intros Hb Hex Hle. apply bounded_inv in Hb as Hb'. destruct Hb' as (HdB & HeB & _).
  assert (Hcan : fexp prec emax (Zpos (digits2_pos mb) + eb) = eb).
  { unfold bounded, canonical_mantissa in Hb. apply andb_true_iff in Hb as [Hb _].
    now apply Z.eqb_eq in Hb. }
  rewrite fexp_eq in Hcan.
  destruct (digits2_pos_bounds mb) as [HmB HmB'].
  destruct (digits2_pos_bounds mx) as [Hmx' Hmx].
  set (dB := Zpos (digits2_pos mb)) in *.
  set (d := Zpos (digits2_pos mx)) in *.
  assert (HdB1 : 1 <= dB) by (subst dB; lia).
  assert (Hd1 : 1 <= d) by (subst d; lia).
  assert (HD : dB + eb <= d + ex).
  { destruct (Z.le_gt_cases (dB + eb) (d + ex)) as [|Hgt]; [assumption|].
    assert (2 ^ d <= 2 ^ (dB - 1 + (eb - ex))) by (apply Z.pow_le_mono_r; lia).
    rewrite Z.pow_add_r in H by lia.
    assert (2 ^ (dB - 1) * 2 ^ (eb - ex) <= Zpos mb * 2 ^ (eb - ex))
      by (apply Z.mul_le_mono_nonneg_r; [apply Z.pow_nonneg; lia | assumption]).
    lia. }
  unfold binary_round_aux.
  destruct (Z.le_gt_cases (fexp prec emax (Zdigits2 (Zpos mx) + ex)) ex) as [Hk|Hk].
  - destruct (shr_fexp_exact (Zpos mx) ex) as [[_ Heq] | [Hlt _]]; [lia| |lia].
    rewrite Heq. cbn [shr_m loc_of_shr_record round_nearest_even]. rewrite Heq.
    cbn [shr_m]. cbn [Zdigits2] in Hk. fold d in Hk. rewrite fexp_eq in Hk.
    assert (ex = eb) by lia. subst ex.
    replace (eb <=? emax - prec) with true by (symmetry; apply Z.leb_le; cbn; lia).
    right. exists mx, eb. split; [reflexivity|]. split; [lia|].
    rewrite Z.sub_diag in *. cbn in Hle |- *. lia.
  - destruct (shr_fexp_exact (Zpos mx) ex) as [[Hle1 _] | [_ [mrs [Heq Hm]]]]; [lia|lia|].
    rewrite Heq; clear Heq. cbn [Zdigits2] in *. fold d in Hk, Hm |- *.
    set (e1 := fexp prec emax (d + ex)) in *.
    assert (He1 : e1 = Z.max (d + ex - 53) (-1074)) by (subst e1; apply fexp_eq).
    assert (He1b : eb <= e1) by lia.
    set (k := e1 - ex) in *.
    assert (H2k : 0 < 2 ^ k) by (apply Z.pow_pos_nonneg; lia).
    pose proof (round_nearest_even_bounds (shr_m mrs) (loc_of_shr_record mrs)) as Hr.
    set (m1 := round_nearest_even (shr_m mrs) (loc_of_shr_record mrs)) in *.
    (* the shifted mantissa is below [2 ^ 53] and not below the bound *)
    assert (Hup : shr_m mrs < 2 ^ 53).
    { rewrite Hm. apply Z.div_lt_upper_bound; [assumption|].
      rewrite <- Z.pow_add_r by lia.
      eapply Z.lt_le_trans; [exact Hmx|]. apply Z.pow_le_mono_r; lia. }
    assert (Hlo : Zpos mb <= shr_m mrs * 2 ^ (e1 - eb)).
    { rewrite Hm. destruct (Z.eq_dec e1 eb) as [E|E].
      - rewrite E, Z.sub_diag, Z.mul_1_r. unfold k. rewrite E.
        apply Z.div_le_lower_bound; [apply Z.pow_pos_nonneg; lia|].
        rewrite Z.mul_comm. exact Hle.
      - assert (Hk52 : k = d - 53) by lia.
        assert (H52 : 2 ^ 52 <= Zpos mx / 2 ^ k).
        { apply Z.div_le_lower_bound; [assumption|].
          rewrite <- Z.pow_add_r by lia.
          eapply Z.le_trans; [|exact Hmx']. apply Z.pow_le_mono_r; lia. }
        assert (Zpos mb < 2 ^ 53)
          by (eapply Z.lt_le_trans; [exact HmB' | apply Z.pow_le_mono_r; lia]).
        assert (2 ^ 1 <= 2 ^ (e1 - eb)) by (apply Z.pow_le_mono_r; lia).
        change (2 ^ 1) with 2 in *. change (2 ^ 52) with 4503599627370496 in *.
        change (2 ^ 53) with 9007199254740992 in *. nia. }
    assert (Hm1 : Zpos mb <= m1 * 2 ^ (e1 - eb)).
    { eapply Z.le_trans; [exact Hlo|].
      apply Z.mul_le_mono_nonneg_r; [apply Z.pow_nonneg; lia | lia]. }
    assert (Hm1pos : 0 < m1).
    { assert (0 < 2 ^ (e1 - eb)) by (apply Z.pow_pos_nonneg; lia). nia. }
    destruct (shr_fexp_exact m1 e1) as [[Hle2 Heq2] | [Hlt2 [mrs2 [Heq2 Hm2]]]]; [lia| |];
      rewrite Heq2; clear Heq2.
    + cbn [shr_m]. destruct m1 as [|p1|p1]; try lia.
      destruct (e1 <=? emax - prec); [|left; reflexivity].
      right. exists p1, e1. split; [reflexivity|]. split; assumption.
    + (* the rounded mantissa is [2 ^ 53]: one more exact shift *)
      rewrite fexp_eq in Hlt2.
      assert (Hdig : 53 < Zdigits2 m1) by lia.
      assert (Hm153 : m1 = 2 ^ 53).
      { destruct (Z.le_gt_cases (2 ^ 53) m1) as [|Hlt]; [lia|].
        assert (Zdigits2 m1 <= 53) by (apply Zdigits2_le; lia). lia. }
      set (e2 := fexp prec emax (Zdigits2 m1 + e1)) in *.
      assert (Hd54 : Zdigits2 m1 = 54) by (rewrite Hm153; reflexivity).
      assert (He2 : e2 = e1 + 1) by (subst e2; rewrite fexp_eq; lia).
      rewrite Hm2, He2, Hm153.
      replace (e1 + 1 - e1) with 1 by lia.
      change (2 ^ 53 / 2 ^ 1) with (Zpos 4503599627370496).
      destruct (e1 + 1 <=? emax - prec); [|left; reflexivity].
      right. exists 4503599627370496%positive, (e1 + 1). split; [reflexivity|].
      split; [lia|].
      rewrite Hm153 in Hm1.
      replace (e1 + 1 - eb) with (1 + (e1 - eb)) by lia.
      rewrite Z.pow_add_r by lia.
      change (2 ^ 53) with 9007199254740992 in Hm1. change (2 ^ 1) with 2. lia.
Qed.

Lemma shl_align_le mx ex e' :
  let r := shl_align mx ex e' in
  snd r <= ex /\ Zpos (fst r) = Zpos mx * 2 ^ (ex - snd r).
Proof.
  destruct (shl_align_spec mx ex e') as (H1 & _ & H2). now split.
Qed.

(** Adding a positive double never gives less. *)
Lemma SFadd_ge m e ms es :
  bounded prec emax m e = true ->
  SFadd prec emax (S754_finite false m e) (S754_finite false ms es) = S754_infinity false \/
  exists m' e',
    SFadd prec emax (S754_finite false m e) (S754_finite false ms es)
      = S754_finite false m' e' /\
    e <= e' /\ Zpos m <= Zpos m' * 2 ^ (e' - e).
Proof.
  intros Hb. cbn [SFadd cond_Zopp].
  set (ez := Z.min e es).
  destruct (shl_align_spec m e ez) as (_ & H1e & H1); specialize (H1e ltac:(lia)).
  destruct (shl_align_spec ms es ez) as (_ & H2e & H2); specialize (H2e ltac:(lia)).
  rewrite H1e in H1. rewrite H2e in H2.
  set (p1 := fst (shl_align m e ez)) in *. set (p2 := fst (shl_align ms es ez)) in *.
  change (Zpos p1 + Zpos p2) with (Zpos (p1 + p2)). cbn [binary_normalize].
  unfold binary_round.
  destruct (shl_align_le (p1 + p2) ez (fexp prec emax (Zpos (digits2_pos (p1 + p2)) + ez)))
    as [Hez Hmz].
  destruct (shl_align (p1 + p2) ez _) as [mz ez']. cbn [fst snd] in *.
  apply binary_round_aux_ge; [assumption | lia |].
  rewrite Hmz, Pos2Z.inj_add, H1.
  replace (e - ez') with ((e - ez) + (ez - ez')) by lia.
  rewrite Z.pow_add_r, Z.mul_assoc by lia.
  apply Z.mul_le_mono_nonneg_r; [apply Z.pow_nonneg; lia | lia].
Qed.

(** For an angle and a speed of the program the sum is not below the
    angle. *)
Lemma angle_step_ge a s :
  angle_ok a = true -> speed_ok s = true -> (a <=? a + s)%float = true.
Proof.
  intros Ha Hs.
  pose proof (Prim2SF_valid a) as Hv.
  apply speed_ok_inv in Hs as [(ms & es & Hs & Hds & Hes) _].
  apply angle_ok_inv in Ha as [[sg Ha] | (m & e & Ha & Hd & He & _)];
    rewrite FloatAxioms.leb_spec, add_spec, Ha, Hs.
  - destruct sg; reflexivity.
  - rewrite Ha in Hv. unfold SF64add.
    destruct (SFadd_ge m e ms es Hv) as [Hz | (m' & e' & Hz & He' & Hm')]; rewrite Hz;
      [reflexivity|].
    unfold SFleb. cbn [SFcompare].
    destruct (Z.compare_spec e e') as [E|E|E]; try lia; try reflexivity.
    subst e'. rewrite Z.sub_diag, Z.mul_1_r in Hm'.
    rewrite Pos.compare_cont_spec. cbn [Pos.switch_Eq]. rewrite Pos2Z.inj_compare.
    destruct (Z.compare_spec (Zpos m) (Zpos m')); try lia; reflexivity.
Qed.

Lemma Prim2SF_2p31 : Prim2SF 0x1p31 = S754_finite false 4503599627370496 (-21).
Proof. reflexivity. Qed.

(** A double that is [2 ^ 31] or more has no [int]. *)
Lemma to_int_mul_one_beyond r :
  (0x1p31 <=? r)%float = true -> Double.to_int (r * 1) = None.
Proof.
  intros H. rewrite FloatAxioms.leb_spec, Prim2SF_2p31 in H.
  pose proof (Prim2SF_valid r) as Hv.
  unfold Double.to_int, Double.truncate. rewrite mul_spec, Prim2SF_one. unfold SF64mul.
  destruct (Prim2SF r) as [s|s| |s m e]; try (destruct s; discriminate H); try reflexivity.
  destruct s; [discriminate H|].
  assert (Hge : 2147483648 <= Z.shiftl (Zpos m) e).
  { apply bounded_inv in Hv as Hv'. destruct Hv' as (Hd & He & Hc).
    destruct (digits2_pos_bounds m) as [Hlo _].
    unfold SFleb in H. cbn [SFcompare] in H.
    assert (Hm : 4503599627370496 <= Zpos m /\ -21 <= e).
    { destruct (Z.compare_spec (-21) e) as [E|E|E]; try discriminate H.
      - subst e. split; [|lia].
        rewrite Pos.compare_cont_spec in H. cbn [Pos.switch_Eq] in H.
        rewrite Pos2Z.inj_compare in H.
        destruct (Z.compare_spec 4503599627370496 (Zpos m)); try discriminate H; lia.
      - split; [|lia]. destruct Hc as [Hc|Hc]; [|lia]. rewrite Hc in Hlo.
        exact Hlo. }
    destruct Hm as [Hm He21].
    assert (H1 : Z.shiftl (Zpos m) (-21) <= Z.shiftl (Zpos m) e).
    { apply shiftl_le_shiftl; [lia|].
      assert (0 < 2 ^ (e - -21)) by (apply Z.pow_pos_nonneg; lia). nia. }
    assert (H2 : Z.shiftl 4503599627370496 (-21) <= Z.shiftl (Zpos m) (-21))
      by (apply shiftl_le; assumption).
    change (Z.shiftl 4503599627370496 (-21)) with 2147483648 in H2. lia. }
  cbn [SFmul xorb].
  destruct (binary_round_aux_ge false (m * 4503599627370496) (e + -52) m e Hv)
    as [Hz | (m' & e' & Hz & He' & Hm')].
  - lia.
  - replace (e - (e + -52)) with 52 by lia. rewrite Pos2Z.inj_mul. reflexivity.
  - rewrite Hz. reflexivity.
  - rewrite Hz. cbn [obind cond_Zopp].
    pose proof (shiftl_le_shiftl m e m' e' He' Hm') as [_ Hs].
    unfold Int.checked, Int.in_range, Int.max_value.
    replace (Z.shiftl (Zpos m') e' <=? 2147483647) with false
      by (symmetry; apply Z.leb_gt; lia).
    now rewrite andb_false_r.
Qed.

End Binary64.

(** ** The position update *)

Lemma checked_Some z z' : Int.checked z = Some z' -> z' = z.
Proof.
  unfold Int.checked. destruct (Int.in_range z); [|discriminate]. congruence.
Qed.

Ltac step_obind H :=
  match type of H with
  | obind ?c _ = Some _ =>
      let v := fresh "v" in
      let E := fresh "E" in
      destruct c as [v|] eqn:E; [cbn [obind] in H | discriminate H]
  end.

Section Update.
Context {libm : Libm}.

(** Whenever the update is defined, it is the assignment of the source. *)
Lemma updatePosition_inv sunX sunY p p' :
  updatePosition sunX sunY p = Some p' ->
  exists dx dy,
    Double.to_int (orbitRadius p * cos (angle p)) = Some dx /\
    Double.to_int (orbitRadius p * sin (angle p)) = Some dy /\
    p' = placed p (sunX + dx - halfW p) (sunY + dy - halfH p).
Proof.
  unfold updatePosition, Int.add, Int.sub. intros H.
  do 6 step_obind H.
  apply checked_Some in E0, E1, E3, E4. subst.
  exists v, v2. repeat split. now inversion H.
Qed.

Lemma angle_ok_finite a : angle_ok a = true -> Double.finite a = true.
Proof.
  intros H. unfold Double.finite.
  destruct (Binary64.angle_ok_inv a H) as [[s Ha] | (m & e & Ha & _)]; now rewrite Ha.
Qed.

Lemma small_inv z : small z = true -> -1048576 <= z <= 1048576.
Proof. unfold small. intros H. apply Z.leb_le in H. lia. Qed.

(** A steady body can be updated, and is steady afterwards. *)
Lemma updatePosition_steady sunX sunY p :
  small sunX = true -> small sunY = true -> steady p = true ->
  exists dx dy,
    Double.to_int (orbitRadius p * cos (angle p)) = Some dx /\
    Double.to_int (orbitRadius p * sin (angle p)) = Some dy /\
    updatePosition sunX sunY p
      = Some (placed p (sunX + dx - halfW p) (sunY + dy - halfH p)) /\
    steady (placed p (sunX + dx - halfW p) (sunY + dy - halfH p)) = true.
Proof.
  intros HX HY Hp. unfold steady in Hp.
  apply andb_true_iff in Hp as [Hp HH]. apply andb_true_iff in Hp as [Hp HW].
  apply andb_true_iff in Hp as [Hp Hr]. apply andb_true_iff in Hp as [Ha Hs].
  apply small_inv in HX, HY, HW, HH.
  pose proof (angle_ok_finite _ Ha) as Hfin.
  destruct (Binary64.to_int_mul_bounded _ _ Hr (cos_bounded _ Hfin)) as (dx & Hdx & Bx).
  destruct (Binary64.to_int_mul_bounded _ _ Hr (sin_bounded _ Hfin)) as (dy & Hdy & By).
  exists dx, dy. split; [exact Hdx|]. split; [exact Hdy|]. split.
  - unfold updatePosition, Int.add, Int.sub. rewrite Hdx, Hdy. cbn [obind].
    repeat (rewrite Binary64.checked_small by lia; cbn [obind]). reflexivity.
  - unfold steady, placed; cbn [angle orbitSpeed orbitRadius halfW halfH].
    rewrite (Binary64.angle_step _ _ Ha Hs), Hs, Hr.
    unfold small. now rewrite !(proj2 (Z.leb_le _ _)) by lia.
Qed.

(** The update needs no more than a finite angle, a radius of magnitude at
    most [2 ^ 20] and small integers; the offsets are then within the
    integral part of the radius. *)
Lemma updatePosition_within sunX sunY p R :
  small sunX = true -> small sunY = true ->
  small (halfW p) = true -> small (halfH p) = true ->
  (abs (orbitRadius p) <=? 0x1p20)%float = true ->
  Double.finite (angle p) = true ->
  reach p = Some R ->
  exists dx dy,
    Double.to_int (orbitRadius p * cos (angle p)) = Some dx /\
    Double.to_int (orbitRadius p * sin (angle p)) = Some dy /\
    - R <= dx <= R /\ - R <= dy <= R /\
    updatePosition sunX sunY p
      = Some (placed p (sunX + dx - halfW p) (sunY + dy - halfH p)).
Proof.
  intros HX HY HW HH Hr Hfin HR.
  apply small_inv in HX, HY, HW, HH.
  destruct (Binary64.to_int_mul_bounded _ _ Hr (cos_bounded _ Hfin)) as (dx & Hdx & Bx).
  destruct (Binary64.to_int_mul_bounded _ _ Hr (sin_bounded _ Hfin)) as (dy & Hdy & By).
  destruct (Binary64.to_int_mul_within _ _ R Hr (cos_bounded _ Hfin) HR) as (tx & Htx & Rx).
  destruct (Binary64.to_int_mul_within _ _ R Hr (sin_bounded _ Hfin) HR) as (ty & Hty & Ry).
  rewrite Hdx in Htx. rewrite Hdy in Hty. inversion Htx; inversion Hty; subst tx ty.
  exists dx, dy. repeat split; try assumption; try lia.
  unfold updatePosition, Int.add, Int.sub. rewrite Hdx, Hdy. cbn [obind].
  repeat (rewrite Binary64.checked_small by lia; cbn [obind]). reflexivity.
Qed.

Lemma updates_inv n sunX sunY : forall p p',
  updates n sunX sunY p = Some p' ->
  angle p' = angle_after n (angle p) (orbitSpeed p) /\
  orbitRadius p' = orbitRadius p /\ orbitSpeed p' = orbitSpeed p /\
  texture p' = texture p /\ halfW p' = halfW p /\ halfH p' = halfH p /\
  w (rect p') = w (rect p) /\ h (rect p') = h (rect p).
Proof.
  induction n as [|n IH]; intros p p' H; cbn [updates angle_after] in *.
  - inversion H. subst. repeat split.
  - step_obind H. apply updatePosition_inv in E as (dx & dy & _ & _ & ->).
    apply IH in H. cbn [placed angle orbitSpeed orbitRadius texture halfW halfH rect w h] in H.
    exact H.
Qed.

Lemma updates_steady n sunX sunY :
  small sunX = true -> small sunY = true ->
  forall p, steady p = true ->
  exists p', updates n sunX sunY p = Some p' /\ steady p' = true.
Proof.
  intros HX HY. induction n as [|n IH]; intros p Hp; cbn [updates].
  - now exists p.
  - destruct (updatePosition_steady sunX sunY p HX HY Hp) as (dx & dy & _ & _ & -> & Hp').
    cbn [obind]. now apply IH.
Qed.

Lemma run_ops_inv ops : forall p p' tr,
  run_ops ops p = Some (p', tr) ->
  orbitRadius p' = orbitRadius p /\ orbitSpeed p' = orbitSpeed p /\
  texture p' = texture p /\ halfW p' = halfW p /\ halfH p' = halfH p /\
  w (rect p') = w (rect p) /\ h (rect p') = h (rect p).
Proof.
  induction ops as [|[sunX sunY|] ops IH]; intros p p' tr H; cbn [run_ops] in H.
  - inversion H. subst. repeat split.
  - step_obind H. apply updatePosition_inv in E as (dx & dy & _ & _ & ->).
    apply IH in H.
    cbn [placed angle orbitSpeed orbitRadius texture halfW halfH rect w h] in H.
    exact H.
  - step_obind H. destruct v as [q trq]. inversion H; subst.
    exact (IH _ _ _ E).
Qed.

Lemma run_ops_steady ops :
  small_centres ops = true ->
  forall p, steady p = true ->
  exists p' tr, run_ops ops p = Some (p', tr) /\ steady p' = true.
Proof.
  induction ops as [|[sunX sunY|] ops IH]; intros Hops p Hp;
    cbn [run_ops small_centres forallb] in *.
  - now exists p, [].
  - apply andb_true_iff in Hops as [Hc Hops]. apply andb_true_iff in Hc as [HX HY].
    destruct (updatePosition_steady sunX sunY p HX HY Hp) as (dx & dy & _ & _ & -> & Hp').
    cbn [obind]. now apply IH.
  - destruct (IH Hops p Hp) as (p' & tr & -> & Hp'). cbn [obind fst snd].
    now exists p', (render p :: tr).
Qed.

(** The loop over the array: every body is updated once, in order, and
    drawn right after its update. *)
Lemma update_and_render_inv sunX sunY : forall ps ps' tr,
  update_and_render sunX sunY ps = Some (ps', tr) ->
  Forall2 (fun p p' => updatePosition sunX sunY p = Some p') ps ps' /\
  tr = map render ps'.
Proof.
  induction ps as [|p ps IH]; intros ps' tr H; cbn [update_and_render] in H.
  - inversion H. split; constructor.
  - do 2 step_obind H. destruct v0 as [qs trs]. inversion H; subst.
    destruct (IH _ _ eq_refl) as [HF ->]. cbn [fst snd]. split; [|reflexivity].
    constructor; assumption.
Qed.

Lemma update_and_render_steady sunX sunY :
  small sunX = true -> small sunY = true ->
  forall ps, Forall (fun p => steady p = true) ps ->
  exists ps', update_and_render sunX sunY ps = Some (ps', map render ps') /\
              Forall (fun p => steady p = true) ps'.
Proof.
  intros HX HY. induction 1 as [|p ps Hp _ IH]; cbn [update_and_render].
  - exists []. split; [reflexivity | constructor].
  - destruct (updatePosition_steady sunX sunY p HX HY Hp) as (dx & dy & _ & _ & -> & Hp').
    destruct IH as (ps' & -> & Hps'). cbn [obind fst snd].
    exists (placed p (sunX + dx - halfW p) (sunY + dy - halfH p) :: ps').
    split; [reflexivity|]. constructor; assumption.
Qed.

Lemma updated_texture sunX sunY ps ps' :
  Forall2 (fun p p' => updatePosition sunX sunY p = Some p') ps ps' ->
  map texture ps' = map texture ps.
Proof.
  induction 1 as [|p p' ps ps' H _ IH]; [reflexivity|]. cbn [map].
  apply updatePosition_inv in H as (dx & dy & _ & _ & ->). now rewrite IH.
Qed.

Lemma updated_radius sunX sunY ps ps' :
  Forall2 (fun p p' => updatePosition sunX sunY p = Some p') ps ps' ->
  map orbitRadius ps' = map orbitRadius ps.
Proof.
  induction 1 as [|p p' ps ps' H _ IH]; [reflexivity|]. cbn [map].
  apply updatePosition_inv in H as (dx & dy & _ & _ & ->). now rewrite IH.
Qed.

Lemma frame_inv ps ps' tr :
  frame ps = Some (ps', tr) ->
  Forall2 (fun p p' => updatePosition sunXCoordinate sunYCoordinate p = Some p') ps ps' /\
  tr = frame_trace ps'.
Proof.
  unfold frame. intros H. step_obind H. destruct v as [qs trs].
  apply update_and_render_inv in E as [HF ->]. inversion H; subst. now split.
Qed.

Lemma frame_steady ps :
  Forall (fun p => steady p = true) ps ->
  exists ps', frame ps = Some (ps', frame_trace ps') /\
              Forall (fun p => steady p = true) ps'.
Proof.
  intros H.
  destruct (update_and_render_steady sunXCoordinate sunYCoordinate eq_refl eq_refl ps H)
    as (ps' & E & H').
  exists ps'. unfold frame. rewrite E. now split.
Qed.

Lemma planets_steady : Forall (fun p => steady p = true) planets.
Proof. repeat constructor. Qed.

Lemma draw_operations_render ps :
  draw_operations (map render ps) = map Draw (map texture ps).
Proof.
  induction ps as [|p ps IH]; [reflexivity|].
  cbn [map]. rewrite <- IH. reflexivity.
Qed.

Lemma drawn_frame_trace ps' :
  map texture ps' = map texture planets ->
  draw_operations (frame_trace ps') = frame_order.
Proof.
  intros H. unfold frame_trace, draw_operations. rewrite !flat_map_app.
  fold (draw_operations (map render ps')). rewrite draw_operations_render, H.
  reflexivity.
Qed.
End Update.

(** ** Events *)

Lemma handle_event_stops running event :
  handle_event running event = if stops event then false else running.
Proof.
  unfold handle_event, stops.
  destruct (type event =? SDL_QUIT), (type event =? SDL_KEYDOWN),
    (key_keysym_sym event =? SDLK_ESCAPE); reflexivity.
Qed.

Lemma poll_events_stops pending : forall running,
  poll_events pending running = running && negb (existsb stops pending).
Proof.
  unfold poll_events.
  induction pending as [|event pending IH]; intros running; cbn [fold_left existsb].
  - now rewrite andb_true_r.
  - rewrite IH, handle_event_stops.
    destruct (stops event), running; reflexivity.
Qed.

(** ** Arrays *)

Lemma nth_error_set_nth_ne {A} (v : A) : forall l i j,
  i <> j -> nth_error (set_nth i v l) j = nth_error l j.
Proof.
  induction l as [|a l IH]; intros [|i] [|j] H; cbn; try reflexivity; try congruence.
  apply IH. congruence.
Qed.

Lemma set_nth_comm {A} (u v : A) : forall l i j,
  i <> j -> set_nth i v (set_nth j u l) = set_nth j u (set_nth i v l).
Proof.
  induction l as [|a l IH]; intros [|i] [|j] H; cbn; try reflexivity; try congruence.
  f_equal. apply IH. congruence.
Qed.

Lemma set_nth_app {A} (v a : A) rest : forall pre,
  set_nth (length pre) v (pre ++ a :: rest) = pre ++ v :: rest.
Proof.
  induction pre as [|b pre IH]; cbn; [reflexivity|]. now rewrite IH.
Qed.

Lemma nth_error_middle {A} (a : A) rest : forall pre,
  nth_error (pre ++ a :: rest) (length pre) = Some a.
Proof.
  induction pre as [|b pre IH]; cbn; [reflexivity | exact IH].
Qed.

Section Loops.
Context {libm : Libm}.

(** Updates of two bodies commute. *)
Lemma update_at_comm sunX sunY i j ps :
  (ps' <- update_at sunX sunY i ps ;; update_at sunX sunY j ps')
  = (ps' <- update_at sunX sunY j ps ;; update_at sunX sunY i ps').
Proof.
  destruct (Nat.eq_dec i j) as [->|Hij]; [reflexivity|].
  unfold update_at.
  destruct (nth_error ps i) as [p|] eqn:Ei, (nth_error ps j) as [q|] eqn:Ej; cbn [obind].
  - destruct (updatePosition sunX sunY p) as [p'|] eqn:Ep,
      (updatePosition sunX sunY q) as [q'|] eqn:Eq; cbn [obind];
      rewrite ?nth_error_set_nth_ne by congruence;
      rewrite ?Ei, ?Ej; cbn [obind]; rewrite ?Ep, ?Eq; cbn [obind]; try reflexivity.
    f_equal. apply set_nth_comm. congruence.
  - destruct (updatePosition sunX sunY p) as [p'|]; cbn [obind]; [|reflexivity].
    rewrite nth_error_set_nth_ne by congruence. now rewrite Ej.
  - destruct (updatePosition sunX sunY q) as [q'|]; cbn [obind]; [|reflexivity].
    rewrite nth_error_set_nth_ne by congruence. now rewrite Ei.
  - reflexivity.
Qed.

Lemma update_in_order_perm sunX sunY o1 o2 :
  Permutation o1 o2 ->
  forall ps, update_in_order sunX sunY o1 ps = update_in_order sunX sunY o2 ps.
Proof.
  induction 1 as [|i o1 o2 _ IH|i j o|o1 o2 o3 _ IH1 _ IH2]; intros ps;
    cbn [update_in_order].
  - reflexivity.
  - destruct (update_at sunX sunY i ps); cbn [obind]; [apply IH | reflexivity].
  - pose proof (update_at_comm sunX sunY i j ps) as H.
    destruct (update_at sunX sunY i ps) as [pi|], (update_at sunX sunY j ps) as [pj|];
      cbn [obind] in *.
    + destruct (update_at sunX sunY j pi), (update_at sunX sunY i pj);
        cbn [obind]; congruence.
    + now rewrite H.
    + now rewrite <- H.
    + reflexivity.
  - now rewrite IH1.
Qed.

Lemma update_in_order_seq sunX sunY : forall rest pre,
  update_in_order sunX sunY (seq (length pre) (length rest)) (pre ++ rest)
  = (r <- update_and_render sunX sunY rest ;; Some (pre ++ fst r)).
Proof.
  induction rest as [|p rest IH]; intros pre;
    cbn [length seq update_in_order update_and_render obind fst].
  - reflexivity.
  - unfold update_at. rewrite nth_error_middle. cbn [obind].
    destruct (updatePosition sunX sunY p) as [p'|]; cbn [obind]; [|reflexivity].
    rewrite set_nth_app.
    specialize (IH (pre ++ [p'])).
    rewrite length_app, Nat.add_1_r, <- app_assoc in IH. cbn [app] in IH.
    rewrite IH.
    destruct (update_and_render sunX sunY rest) as [[qs tr]|]; cbn [obind fst];
      [|reflexivity].
    now rewrite <- app_assoc.
Qed.

Lemma update_in_order_array sunX sunY ps :
  update_in_order sunX sunY (seq 0 (length ps)) ps
  = option_map fst (update_and_render sunX sunY ps).
Proof.
  pose proof (update_in_order_seq sunX sunY ps []) as H. cbn [length app] in H.
  rewrite H. now destruct (update_and_render sunX sunY ps) as [[qs tr]|].
Qed.

(** ** The main loop *)

Lemma frames_steady n : forall ps,
  Forall (fun p => steady p = true) ps ->
  map texture ps = map texture planets ->
  exists ps' tr,
    frames n ps = Some (ps', tr) /\
    Forall (fun p => steady p = true) ps' /\
    map texture ps' = map texture planets /\
    map orbitRadius ps' = map orbitRadius ps /\
    draw_operations tr = concat (repeat frame_order n).
Proof.
  induction n as [|n IH]; intros ps Hs Ht; cbn [frames].
  - exists ps, []. repeat split; assumption.
  - destruct (frame_steady ps Hs) as (ps1 & E & Hs1).
    pose proof (frame_inv _ _ _ E) as [HF _].
    pose proof (updated_texture _ _ _ _ HF) as Ht1. rewrite Ht in Ht1.
    pose proof (updated_radius _ _ _ _ HF) as Hr1.
    destruct (IH ps1 Hs1 Ht1) as (ps' & tr & E' & Hs' & Ht' & Hr' & Hd).
    rewrite E. cbn [obind fst snd]. rewrite E'. cbn [obind fst snd].
    exists ps', (frame_trace ps1 ++ tr). repeat split; try assumption.
    + congruence.
    + unfold draw_operations in *.
      rewrite flat_map_app, Hd. fold (draw_operations (frame_trace ps1)).
      rewrite drawn_frame_trace by assumption. reflexivity.
Qed.

(** The loop runs [iterations polls] frames; it stops when one of the
    polls brought a stopping event and waits for events otherwise. *)
Lemma main_loop_frames polls : forall ps,
  Forall (fun p => steady p = true) ps ->
  exists ps' tr,
    frames (iterations polls) ps = Some (ps', tr) /\
    main_loop polls ps = (if quits polls then Stopped ps' else Waiting ps', tr).
Proof.
  induction polls as [|pending later IH]; intros ps Hs;
    cbn [iterations quits existsb main_loop].
  - exists ps, []. split; reflexivity.
  - rewrite poll_events_stops. cbn [andb].
    destruct (frame_steady ps Hs) as (ps1 & E & Hs1). rewrite E.
    destruct (existsb stops pending); cbn [negb orb].
    + exists ps1, (frame_trace ps1). cbn [frames]. rewrite E. cbn [obind fst snd].
      rewrite app_nil_r. split; reflexivity.
    + destruct (IH ps1 Hs1) as (ps' & tr & E' & El).
      exists ps', (frame_trace ps1 ++ tr). cbn [frames]. rewrite E. cbn [obind fst snd].
      rewrite E'. cbn [obind fst snd]. fold (quits later). rewrite El.
      split; reflexivity.
Qed.

(** After [n] frames every body has been updated [n] times against the
    centre of the sun. *)
Lemma frames_updates n : forall ps ps' tr,
  frames n ps = Some (ps', tr) ->
  Forall2 (fun p p' => updates n sunXCoordinate sunYCoordinate p = Some p') ps ps'.
Proof.
  induction n as [|n IH]; intros ps ps' tr H; cbn [frames] in H.
  - inversion H; subst. clear H.
    induction ps' as [|p ps' IHp]; constructor; [reflexivity | exact IHp].
  - do 2 step_obind H. destruct v as [ps1 tr1], v0 as [ps2 tr2]. cbn [fst snd] in *.
    inversion H; subst. clear H.
    apply frame_inv in E as [HF _]. apply IH in E0. clear IH.
    revert ps' E0. induction HF as [|p p1 ps ps1 Hp _ IHF]; intros ps' HU.
    + inversion HU. constructor.
    + inversion HU as [|q1 q ps1' ps'' Hq HU']; subst. constructor.
      * cbn [updates]. rewrite Hp. exact Hq.
      * now apply IHF.
Qed.
End Loops.

(** * The claims *)

(** ** Auxiliary facts *)

Lemma float_neq (a b : float) : Leibniz.eqb a b = false -> a <> b.
Proof.
  intros H E. apply Leibniz.eqb_spec in E. congruence.
Qed.

(** [all_textures] lists every texture variable of [main]. *)
Lemma all_textures_complete t : In t all_textures.
Proof. destruct t; cbn; tauto. Qed.


(** ** The definitions on concrete inputs *)

Example to_int_discards_the_fraction : Double.to_int (-3.99) = Some (-3).
Proof. reflexivity. Qed.

Example to_int_beyond_int : Double.to_int 2147483648 = None.
Proof. reflexivity. Qed.

Example of_int_minus_ten : Double.of_int (-10) = (-10)%float.
Proof. reflexivity. Qed.

Example exact_sum_of_halves : exact_sum 1 0.5 2 2 = true.
Proof. reflexivity. Qed.

Example exact_sum_rounded : exact_sum 135 0.02 (135 + 0.02) 1 = false.
Proof. vm_compute. reflexivity. Qed.

Example neptune_first_frame :
  updatePosition (libm := series_libm) sunXCoordinate sunYCoordinate neptune
  = Some (placed neptune 1480 510).
Proof. vm_compute. reflexivity. Qed.

Example escape_clears_running :
  handle_event true {| type := SDL_KEYDOWN; key_keysym_sym := SDLK_ESCAPE |} = false.
Proof. reflexivity. Qed.

Example another_key_is_ignored :
  handle_event true {| type := SDL_KEYDOWN; key_keysym_sym := 97 |} = true.
Proof. reflexivity. Qed.

Example escape_in_the_second_poll :
  fst (main (libm := series_libm)
         {| sdl_init_ok := true; window_ok := true; texture_ok := fun _ => true;
            sdl_error := "none" |}
         [[]; [{| type := SDL_KEYDOWN; key_keysym_sym := SDLK_ESCAPE |}]; []])
  = Returned 0.
Proof. vm_compute. reflexivity. Qed.

Example init_failure :
  main (libm := series_libm)
    {| sdl_init_ok := false; window_ok := false; texture_ok := fun _ => true;
       sdl_error := "no display" |} []
  = (Returned (-1), [SDL_Init; Stderr "SDL could not be initialized: no display"]).
Proof. reflexivity. Qed.

(** ** C1: the draw position *)




(** ** C2: the earth, end to end *)




(** ** C3: the angle *)

(** C3, as stated, fails in its second half.  After three updates of
    mercury (angle 45.0, speed [0.02 * 4.15]) the angle, three rounded
    sums, is neither the double [45 + 3 * speed] nor the real number
    [45 + 3 * speed], whatever the C library. *)
Lemma mercury_angle_after_three_frames :
  ~ exists libm : Libm,
      forall cx cy p n p',
        updates n cx cy p = Some p' ->
        angle p' = spec_angle (angle p) (orbitSpeed p) n \/
        exact_sum (angle p) (orbitSpeed p) (angle p') n = true.
Proof.
  intros [libm H].
  destruct (updates_steady 3 sunXCoordinate sunYCoordinate eq_refl eq_refl mercury eq_refl)
    as (p' & E & _).
  pose proof (H _ _ _ _ _ E) as Ha.
  apply updates_inv in E as [Ea _]. rewrite Ea in Ha.
  destruct Ha as [Ha | Ha].
  - revert Ha. apply float_neq. vm_compute. reflexivity.
  - vm_compute in Ha. discriminate Ha.
Qed.

(** C3, amended: for every body state, when [n] updates are defined the
    angle is the result of [n] successive double additions of the body's
    speed to the initial angle, without clamping or wrap-around, and the
    speed is unchanged; for one update the angle is [angle + orbitSpeed].
    The updates are defined for every steady body and small centre. *)
Theorem updates_angle {libm : Libm} cx cy p n :
  (forall p',
     updates n cx cy p = Some p' ->
     angle p' = angle_after n (angle p) (orbitSpeed p) /\
     orbitSpeed p' = orbitSpeed p /\
     (n = 1%nat -> angle p' = (angle p + orbitSpeed p)%float)) /\
  (small cx = true -> small cy = true -> steady p = true ->
   exists p', updates n cx cy p = Some p').
Proof.
  split.
  - intros p' H. apply updates_inv in H as (Ha & _ & Hs & _).
    split; [exact Ha|]. split; [exact Hs|]. intros ->. exact Ha.
  - intros Hx Hy Hp.
    destruct (updates_steady n cx cy Hx Hy p Hp) as (p' & E & _). now exists p'.
Qed.

(** Three updates of the earth with [series_libm]. *)
Lemma updates_angle_earth :
  exists p',
    updates (libm := series_libm) 3 960 540 earth = Some p' /\
    angle p' = angle_after 3 (angle earth) (orbitSpeed earth) /\
    orbitSpeed p' = orbitSpeed earth /\
    (3%nat = 1%nat -> angle p' = (angle earth + orbitSpeed earth)%float).
Proof.
  pose proof (updates_angle (libm := series_libm) 960 540 earth 3) as [Hval Hdef].
  destruct (Hdef eq_refl eq_refl eq_refl) as [p' E].
  exists p'. split; [exact E|]. exact (Hval p' E).
Defined.

(** ** C4: what an update leaves alone *)

(** C4, as stated, fails: the draw position is an attribute of the body
    ([rect.x], [rect.y]) and changes too.  One update of neptune (angle 0)
    against the sun moves its rectangle from [(0, 0)] to
    [(960 + 550 - 30, 540 + 0 - 30) = (1480, 510)], whatever the C
    library. *)
Lemma neptune_rect_changes :
  ~ exists libm : Libm,
      forall ops p p' tr,
        run_ops ops p = Some (p', tr) ->
        rect p' = rect p /\
        orbitRadius p' = orbitRadius p /\ orbitSpeed p' = orbitSpeed p /\
        texture p' = texture p /\ halfW p' = halfW p /\ halfH p' = halfH p.
Proof.
  intros [libm H].
  specialize (H [DoUpdate sunXCoordinate sunYCoordinate] neptune).
  unfold run_ops, updatePosition, neptune, Planet_new in H.
  cbn [orbitRadius angle halfW halfH orbitSpeed texture rect w h] in H.
  rewrite cos_zero, sin_zero in H.
  destruct (H _ _ eq_refl) as [Hr _]. vm_compute in Hr. discriminate Hr.
Qed.

(** C4, amended: for every body and every sequence of [updatePosition] and
    [render] that is defined, [orbitRadius], [orbitSpeed], the texture, the
    half sizes and the size of the rectangle are unchanged; the angle and
    the position of the rectangle are what changes.  Every sequence with
    small centres is defined on a steady body. *)
Theorem run_ops_unchanged {libm : Libm} ops p :
  (forall p' tr,
     run_ops ops p = Some (p', tr) ->
     orbitRadius p' = orbitRadius p /\ orbitSpeed p' = orbitSpeed p /\
     texture p' = texture p /\ halfW p' = halfW p /\ halfH p' = halfH p /\
     w (rect p') = w (rect p) /\ h (rect p') = h (rect p)) /\
  (small_centres ops = true -> steady p = true ->
   exists p' tr, run_ops ops p = Some (p', tr)).
Proof.
  split.
  - intros p' tr H. exact (run_ops_inv ops p p' tr H).
  - intros Hops Hp.
    destruct (run_ops_steady ops Hops p Hp) as (p' & tr & E & _). now exists p', tr.
Qed.

(** Two frames of the earth with [series_libm]. *)
Lemma run_ops_unchanged_earth :
  exists p' tr,
    run_ops (libm := series_libm)
      [DoUpdate 960 540; DoRender; DoUpdate 960 540; DoRender] earth = Some (p', tr) /\
    orbitRadius p' = orbitRadius earth /\ orbitSpeed p' = orbitSpeed earth /\
    texture p' = texture earth /\ halfW p' = halfW earth /\ halfH p' = halfH earth /\
    w (rect p') = w (rect earth) /\ h (rect p') = h (rect earth).
Proof.
  pose proof (run_ops_unchanged (libm := series_libm)
                [DoUpdate 960 540; DoRender; DoUpdate 960 540; DoRender] earth)
    as [Hval Hdef].
  destruct (Hdef eq_refl eq_refl) as (p' & tr & E).
  exists p', tr. split; [exact E|]. exact (Hval p' tr E).
Defined.

(** ** C5: a missing asset *)

(** C5: when [SDL_Init] has succeeded and any one of the ten textures
    cannot be created, [main] prints a diagnostic on the error stream and
    returns [-1], a nonzero exit code, before the main loop: nothing is
    drawn and no event is looked at.  The return ends the process, and no
    window is left open. *)
Theorem missing_asset_ends_the_program {libm : Libm} env polls t :
  sdl_init_ok env = true -> texture_ok env t = false ->
  main env polls
  = (Returned (-1),
     startup_effects
     ++ [Stderr ("Failed to create texture: " ++ sdl_error env)%string]
     ++ destroy_textures env) /\
  -1 <> 0 /\
  existsb is_stderr (snd (main env polls)) = true /\
  existsb is_frame_effect (snd (main env polls)) = false /\
  main env polls = main env [] /\
  window_left_open env (main env polls) = false.
Proof.
  intros Hinit Ht.
  assert (Htex : forallb (texture_ok env) all_textures = false).
  { destruct (forallb (texture_ok env) all_textures) eqn:E; [|reflexivity].
    rewrite forallb_forall in E. rewrite (E t (all_textures_complete t)) in Ht.
    discriminate Ht. }
  assert (E : forall polls',
             main env polls'
             = (Returned (-1),
                startup_effects
                ++ [Stderr ("Failed to create texture: " ++ sdl_error env)%string]
                ++ destroy_textures env)).
  { intros polls'. unfold main. rewrite Hinit, Htex. reflexivity. }
  rewrite (E polls), (E []). cbn [fst snd].
  split; [reflexivity|]. split; [discriminate|].
  split; [reflexivity|]. split; [reflexivity|]. split; reflexivity.
Qed.

(** The earth's BMP file is missing. *)
Lemma missing_asset_ends_the_program_earth :
  (sdl_init_ok earth_bmp_missing = true /\ texture_ok earth_bmp_missing textureEarth = false) /\
  main (libm := series_libm) earth_bmp_missing [[mouse_motion]; [quit_event]]
  = (Returned (-1),
     startup_effects
     ++ [Stderr ("Failed to create texture: " ++ sdl_error earth_bmp_missing)%string]
     ++ destroy_textures earth_bmp_missing) /\
  -1 <> 0 /\
  existsb is_stderr
    (snd (main (libm := series_libm) earth_bmp_missing [[mouse_motion]; [quit_event]]))
  = true /\
  existsb is_frame_effect
    (snd (main (libm := series_libm) earth_bmp_missing [[mouse_motion]; [quit_event]]))
  = false /\
  main (libm := series_libm) earth_bmp_missing [[mouse_motion]; [quit_event]]
  = main (libm := series_libm) earth_bmp_missing [] /\
  window_left_open earth_bmp_missing
    (main (libm := series_libm) earth_bmp_missing [[mouse_motion]; [quit_event]])
  = false.
Proof.
  split; [split; reflexivity|].
  exact (missing_asset_ends_the_program (libm := series_libm) earth_bmp_missing
           [[mouse_motion]; [quit_event]] textureEarth eq_refl eq_refl).
Defined.

(** ** C6: the order of the bodies *)

(** C6: the update is a function of the body and the centre, so updating
    the bodies in any order (any permutation of the indices) gives the
    array that the loop's array order gives, and in it every body is the
    update of its own previous state. *)
Theorem update_order_irrelevant {libm : Libm} sunX sunY order ps :
  Permutation order (seq 0 (length ps)) ->
  update_in_order sunX sunY order ps
    = option_map fst (update_and_render sunX sunY ps) /\
  forall ps',
    update_in_order sunX sunY order ps = Some ps' ->
    Forall2 (fun p p' => updatePosition sunX sunY p = Some p') ps ps'.
Proof.
  intros HP.
  assert (E : update_in_order sunX sunY order ps
              = option_map fst (update_and_render sunX sunY ps)).
  { rewrite (update_in_order_perm sunX sunY _ _ HP). apply update_in_order_array. }
  split; [exact E|]. intros ps' H. rewrite E in H.
  destruct (update_and_render sunX sunY ps) as [[qs tr]|] eqn:Eu; [|discriminate H].
  cbn in H. inversion H; subst. now apply update_and_render_inv in Eu.
Qed.

(** The eight bodies of [main] updated from neptune back to mercury. *)
Lemma update_order_irrelevant_reversed :
  Permutation [7; 6; 5; 4; 3; 2; 1; 0]%nat (seq 0 (length planets)) /\
  update_in_order (libm := series_libm) 960 540 [7; 6; 5; 4; 3; 2; 1; 0]%nat planets
    = option_map fst (update_and_render (libm := series_libm) 960 540 planets) /\
  forall ps',
    update_in_order (libm := series_libm) 960 540 [7; 6; 5; 4; 3; 2; 1; 0]%nat planets
      = Some ps' ->
    Forall2 (fun p p' => updatePosition (libm := series_libm) 960 540 p = Some p')
      planets ps'.
Proof.
  assert (HP : Permutation [7; 6; 5; 4; 3; 2; 1; 0]%nat (seq 0 (length planets)))
    by (apply Permutation_sym; exact (Permutation_rev (seq 0 8))).
  split; [exact HP|].
  exact (update_order_irrelevant (libm := series_libm) 960 540 _ planets HP).
Defined.

(** ** C7: the order of the drawing *)

(** C7: whatever events arrive, what the main loop draws is, iteration
    after iteration, the sequence [frame_order]: clear, background, sun,
    mercury to neptune in array order, present. *)
Theorem main_loop_draw_order {libm : Libm} polls :
  draw_operations (snd (main_loop polls planets))
    = concat (repeat frame_order (iterations polls)).
Proof.
  destruct (main_loop_frames polls planets planets_steady) as (ps' & tr & E & ->).
  destruct (frames_steady (iterations polls) planets planets_steady eq_refl)
    as (ps1 & tr1 & E1 & _ & _ & _ & Hd).
  rewrite E in E1. inversion E1; subst. exact Hd.
Qed.

(** ** C8: leaving the loop *)

(** C8: an event clears [running] exactly when it is the quit event or a
    key-down of escape, and leaves the flag as it is otherwise; the main
    loop stops exactly when some poll brought such an event (after
    [iterations polls] frames), and otherwise goes on waiting for events. *)
Theorem loop_stops_on_quit_or_escape {libm : Libm} :
  (forall running event,
     handle_event running event = if stops event then false else running) /\
  (forall pending, poll_events pending true = negb (existsb stops pending)) /\
  (forall polls, exists ps,
     fst (main_loop polls planets) = if quits polls then Stopped ps else Waiting ps).
Proof.
  split; [exact handle_event_stops|]. split.
  - intros pending. now rewrite poll_events_stops.
  - intros polls.
    destruct (main_loop_frames polls planets planets_steady) as (ps' & tr & _ & ->).
    now exists ps'.
Qed.

(** ** C9: no error in the loop *)

Lemma main_never_undefined {libm : Libm} env polls :
  fst (main env polls) <> UndefinedBehaviour.
Proof.
  unfold main.
  destruct (negb (sdl_init_ok env)); [discriminate|].
  destruct (negb (forallb (texture_ok env) all_textures)); [discriminate|].
  destruct (main_loop_frames polls planets planets_steady) as (ps' & tr & _ & ->).
  destruct (quits polls); discriminate.
Qed.

(** C9: with the program's constants, any number of frames is defined: no
    conversion to [int] and no [int] sum leaves the range.  After the
    frames every radius is still at most 550, and the two conversions of
    the next update are again in range; hence no run of [main] ends in
    undefined behaviour. *)
Theorem frames_always_defined {libm : Libm} n :
  (exists ps tr,
     frames n planets = Some (ps, tr) /\
     Forall (fun p =>
               (orbitRadius p <=? 550)%float = true /\
               exists dx dy,
                 Double.to_int (orbitRadius p * cos (angle p)) = Some dx /\
                 Double.to_int (orbitRadius p * sin (angle p)) = Some dy) ps) /\
  (forall env polls, fst (main env polls) <> UndefinedBehaviour).
Proof.
  split; [|apply main_never_undefined].
  destruct (frames_steady n planets planets_steady eq_refl)
    as (ps & tr & E & Hs & _ & Hr & _).
  exists ps, tr. split; [exact E|].
  assert (Hrad : Forall (fun r => (r <=? 550)%float = true) (map orbitRadius ps))
    by (rewrite Hr; repeat constructor).
  clear E Hr. induction Hs as [|p ps Hp _ IH]; [constructor|].
  inversion Hrad; subst. constructor; [|now apply IH].
  split; [assumption|].
  destruct (updatePosition_steady sunXCoordinate sunYCoordinate p eq_refl eq_refl Hp)
    as (dx & dy & Hdx & Hdy & _).
  now exists dx, dy.
Qed.

(** ** C10: the centre of the sun *)

(** C10: the centre of the sun is the centre of the window,
    [(960, 540) = (SCREEN_WIDTH / 2, SCREEN_HEIGHT / 2)], a constant of
    [main]; and it is the centre passed to every position update of the
    run: in every frame, after any number of frames, each body is replaced
    by its [updatePosition] against that centre, and when the main loop
    stops or waits each body is the result of as many updates against that
    centre as there were iterations. *)
Theorem sun_centre_is_window_centre {libm : Libm} :
  sunXCoordinate = Z.quot SCREEN_WIDTH 2 /\ sunXCoordinate = 960 /\
  sunYCoordinate = Z.quot SCREEN_HEIGHT 2 /\ sunYCoordinate = 540 /\
  (forall n, exists ps tr ps' tr',
     frames n planets = Some (ps, tr) /\
     frame ps = Some (ps', tr') /\
     Forall2 (fun p p' =>
                updatePosition (Z.quot SCREEN_WIDTH 2) (Z.quot SCREEN_HEIGHT 2) p = Some p')
       ps ps') /\
  (forall polls, exists ps,
     fst (main_loop polls planets) = (if quits polls then Stopped ps else Waiting ps) /\
     Forall2 (fun p p' => updates (iterations polls) 960 540 p = Some p') planets ps).
Proof.
  do 4 (split; [reflexivity|]). split.
  - intros n.
    destruct (frames_steady n planets planets_steady eq_refl) as (ps & tr & E & Hs & _).
    destruct (frame_steady ps Hs) as (ps' & E' & _).
    exists ps, tr, ps', (frame_trace ps'). split; [exact E|]. split; [exact E'|].
    now apply frame_inv in E' as [HF _].
  - intros polls.
    destruct (main_loop_frames polls planets planets_steady) as (ps & tr & E & ->).
    exists ps. split; [reflexivity|]. exact (frames_updates _ _ _ _ E).
Qed.

(** * Further properties of the program *)

Import Binary64.

Section Further.
Context {libm : Libm}.

(** ** The position update, more precisely *)

Lemma steady_inv p :
  steady p = true ->
  angle_ok (angle p) = true /\ speed_ok (orbitSpeed p) = true /\
  (abs (orbitRadius p) <=? 0x1p20)%float = true /\
  small (halfW p) = true /\ small (halfH p) = true.
Proof.
  unfold steady. intros H.
  apply andb_true_iff in H as [H HH]. apply andb_true_iff in H as [H HW].
  apply andb_true_iff in H as [H Hr]. apply andb_true_iff in H as [Ha Hs].
  repeat split; assumption.
Qed.

(** The update of a steady body, with the offsets within the reach. *)
Lemma updatePosition_reach sunX sunY p R :
  small sunX = true -> small sunY = true -> steady p = true -> reach p = Some R ->
  exists dx dy,
    - R <= dx <= R /\ - R <= dy <= R /\
    updatePosition sunX sunY p
      = Some (placed p (sunX + dx - halfW p) (sunY + dy - halfH p)) /\
    steady (placed p (sunX + dx - halfW p) (sunY + dy - halfH p)) = true.
Proof.
  intros HX HY Hp HR.
  destruct (updatePosition_steady sunX sunY p HX HY Hp) as (dx & dy & Hdx & Hdy & E & Hp').
  destruct (steady_inv p Hp) as (Ha & _ & Hr & _).
  pose proof (angle_ok_finite _ Ha) as Hfin.
  destruct (to_int_mul_within _ _ R Hr (cos_bounded _ Hfin) HR) as (tx & Htx & Bx).
  destruct (to_int_mul_within _ _ R Hr (sin_bounded _ Hfin) HR) as (ty & Hty & By).
  rewrite Hdx in Htx. rewrite Hdy in Hty. inversion Htx; inversion Hty; subst tx ty.
  exists dx, dy. repeat split; try assumption; lia.
Qed.

Lemma updates_snoc n sunX sunY : forall p,
  updates (S n) sunX sunY p = (q <- updates n sunX sunY p ;; updatePosition sunX sunY q).
Proof.
  induction n as [|n IH]; intros p.
  - cbn [updates obind]. now destruct (updatePosition sunX sunY p).
  - change (updates (S (S n)) sunX sunY p)
      with (p' <- updatePosition sunX sunY p ;; updates (S n) sunX sunY p').
    cbn [updates]. destruct (updatePosition sunX sunY p) as [p'|]; cbn [obind]; [|reflexivity].
    apply IH.
Qed.

Lemma to_int_opp f t t' :
  Double.to_int f = Some t -> Double.to_int (- f) = Some t' -> t' = - t.
Proof.
  unfold Double.to_int. rewrite truncate_opp.
  destruct (Double.truncate f) as [v|]; cbn [obind option_map]; [|discriminate].
  intros H H'. apply checked_Some in H, H'. lia.
Qed.

(** ** Effects of the loop *)

Lemma frame_trace_frame_effects ps :
  forallb is_frame_effect (frame_trace ps) = true.
Proof.
  unfold frame_trace. rewrite !forallb_app. cbn [forallb is_frame_effect andb].
  rewrite andb_true_r. induction ps as [|p ps IH]; [reflexivity | exact IH].
Qed.

(** Whatever the bodies, the loop emits frame effects only. *)
Lemma main_loop_frame_effects polls : forall ps,
  forallb is_frame_effect (snd (main_loop polls ps)) = true.
Proof.
  induction polls as [|pending later IH]; intros ps; cbn [main_loop]; [reflexivity|].
  destruct (frame ps) as [[ps' tr]|] eqn:E; [|reflexivity].
  apply frame_inv in E as [_ ->].
  destruct (poll_events pending true).
  - specialize (IH ps'). destruct (main_loop later ps') as [e tr']. cbn [snd] in *.
    rewrite forallb_app, IH, frame_trace_frame_effects. reflexivity.
  - cbn [snd]. apply frame_trace_frame_effects.
Qed.



Lemma frames_presented_app a b :
  frames_presented (a ++ b) = (frames_presented a + frames_presented b)%nat.
Proof. unfold frames_presented. now rewrite filter_app, length_app. Qed.

Lemma frames_presented_frame_trace ps : frames_presented (frame_trace ps) = 1%nat.
Proof.
  unfold frame_trace. rewrite !frames_presented_app.
  assert (H : frames_presented (map render ps) = 0%nat)
    by (induction ps as [|p ps IH]; [reflexivity | exact IH]).
  rewrite H. reflexivity.
Qed.

Lemma frames_presented_frames n : forall ps ps' tr,
  frames n ps = Some (ps', tr) -> frames_presented tr = n.
Proof.
  induction n as [|n IH]; intros ps ps' tr H; cbn [frames] in H.
  - now inversion H.
  - do 2 step_obind H. destruct v as [ps1 tr1], v0 as [ps2 tr2]. cbn [fst snd] in *.
    inversion H; subst. apply frame_inv in E as [_ ->]. apply IH in E0.
    now rewrite frames_presented_app, frames_presented_frame_trace, E0.
Qed.

(** Polls after the one that stops the loop are not looked at. *)
Lemma main_loop_stop pending rest : forall pre ps,
  quits pre = false -> existsb stops pending = true ->
  main_loop (pre ++ pending :: rest) ps = main_loop (pre ++ [pending]) ps.
Proof.
  intros pre ps Hpre Hp. revert ps.
  induction pre as [|q pre IH]; intros ps; cbn [app main_loop].
  - rewrite poll_events_stops, Hp. cbn [andb negb].
    now destruct (frame ps) as [[ps' tr]|].
  - cbn [quits existsb] in Hpre. apply orb_false_iff in Hpre as [Hq Hpre'].
    rewrite poll_events_stops, Hq. cbn [andb negb].
    destruct (frame ps) as [[ps' tr]|]; [|reflexivity]. now rewrite IH.
Qed.

Lemma iterations_stop pending rest : forall pre,
  quits pre = false -> existsb stops pending = true ->
  iterations (pre ++ pending :: rest) = S (length pre).
Proof.
  induction pre as [|q pre IH]; intros Hpre Hp; cbn [app iterations length].
  - now rewrite Hp.
  - cbn [quits existsb] in Hpre. apply orb_false_iff in Hpre as [Hq Hpre'].
    rewrite Hq. f_equal. now apply IH.
Qed.

(** ** The sprites and the window *)

Lemma fits_placed p px py : fits (placed p px py) = fits p.
Proof. reflexivity. Qed.

Lemma update_inside p :
  steady p = true -> fits p = true ->
  exists p',
    updatePosition sunXCoordinate sunYCoordinate p = Some p' /\
    steady p' = true /\ fits p' = true /\ drawn_inside (render p') = true.
Proof.
  intros Hp Hf. unfold fits in Hf. destruct (reach p) as [R|] eqn:HR; [|discriminate].
  destruct (updatePosition_reach sunXCoordinate sunYCoordinate p R eq_refl eq_refl Hp HR)
    as (dx & dy & Bx & By & E & Hp').
  eexists. split; [exact E|]. split; [exact Hp'|]. split.
  - rewrite fits_placed. unfold fits. now rewrite HR.
  - unfold drawn_inside, render, inside_x, inside_y, placed.
    cbn [texture rect x y w h].
    apply andb_true_iff in Hf as [Hf Hy]. apply andb_true_iff in Hf as [Hx1 Hx2].
    apply Z.leb_le in Hx1, Hx2.
    apply andb_true_iff. split.
    + apply andb_true_iff. split; apply Z.leb_le; lia.
    + destruct (is_neptune (texture p)); [reflexivity|]. cbn [orb] in *.
      apply andb_true_iff in Hy as [Hy1 Hy2]. apply Z.leb_le in Hy1, Hy2.
      apply andb_true_iff. split; apply Z.leb_le; lia.
Qed.

Lemma update_and_render_inside : forall ps,
  Forall (fun p => steady p = true /\ fits p = true) ps ->
  exists ps',
    update_and_render sunXCoordinate sunYCoordinate ps = Some (ps', map render ps') /\
    Forall (fun p => steady p = true /\ fits p = true) ps' /\
    forallb drawn_inside (map render ps') = true.
Proof.
  induction 1 as [|p ps [Hp Hf] _ IH]; cbn [update_and_render].
  - exists []. repeat split; constructor.
  - destruct (update_inside p Hp Hf) as (p' & E & Hp' & Hf' & Hd).
    destruct IH as (ps' & E' & Hps' & Hds). rewrite E, E'. cbn [obind fst snd].
    exists (p' :: ps'). split; [reflexivity|]. split; [constructor; auto|].
    cbn [map forallb]. now rewrite Hd, Hds.
Qed.

Lemma frames_inside n : forall ps ps' tr,
  Forall (fun p => steady p = true /\ fits p = true) ps ->
  frames n ps = Some (ps', tr) ->
  forallb drawn_inside tr = true.
Proof.
  induction n as [|n IH]; intros ps ps' tr Hps H; cbn [frames] in H.
  - now inversion H.
  - destruct (update_and_render_inside ps Hps) as (ps1 & E & Hps1 & Hd).
    unfold frame in H. rewrite E in H. cbn [obind fst snd] in H.
    step_obind H. destruct v as [ps2 tr2]. cbn [fst snd] in H. inversion H; subst.
    cbn [forallb]. rewrite !forallb_app, Hd, (IH _ _ _ Hps1 E0). reflexivity.
Qed.

Lemma planets_fit : Forall (fun p => steady p = true /\ fits p = true) planets.
Proof. repeat constructor. Qed.
End Further.

Lemma existsb_permutation {A} (f : A -> bool) l l' :
  Permutation l l' -> existsb f l = existsb f l'.
Proof.
  induction 1 as [|a l l' _ IH|a b l|l1 l2 l3 _ IH1 _ IH2]; cbn [existsb].
  - reflexivity.
  - now rewrite IH.
  - now destruct (f a), (f b).
  - now rewrite IH1.
Qed.




(** The main loop on the bodies of the program, in one equation. *)
Lemma main_loop_planets {libm : Libm} polls :
  exists ps tr,
    main_loop polls planets = (if quits polls then Stopped ps else Waiting ps, tr) /\
    forallb is_frame_effect tr = true /\
    frames_presented tr = iterations polls /\
    forallb drawn_inside tr = true.
Proof.
  destruct (main_loop_frames polls planets planets_steady) as (ps & tr & E & El).
  exists ps, tr. split; [exact El|].
  pose proof (main_loop_frame_effects polls planets) as Hf. rewrite El in Hf.
  split; [exact Hf|]. split.
  - exact (frames_presented_frames _ _ _ _ E).
  - exact (frames_inside _ _ _ _ planets_fit E).
Qed.

(** ** X1: the exit status *)

(** X1: [main] returns [-1] exactly when [SDL_Init] or the creation of a
    texture fails; otherwise it returns [0] as soon as a poll brings a
    stopping event, and is still running while none has come. *)
Theorem main_exit_status {libm : Libm} env polls :
  fst (main env polls)
  = if negb (sdl_init_ok env) || negb (forallb (texture_ok env) all_textures)
    then Returned (-1)
    else if quits polls then Returned 0 else StillRunning.
Proof.
  unfold main.
  destruct (negb (sdl_init_ok env)); [reflexivity|].
  destruct (negb (forallb (texture_ok env) all_textures)); [reflexivity|].
  destruct (main_loop_planets polls) as (ps & tr & -> & _).
  cbn [orb]. now destruct (quits polls).
Qed.

(** ** X2: the normal exit *)



(** ** X3: what happens outside the frames *)


(** ** X4: the number of frames *)

(** X4: a run presents no frame when the start-up fails, and otherwise one
    frame per poll up to and including the first poll that brings a
    stopping event. *)
Theorem main_frames_presented {libm : Libm} env polls :
  frames_presented (snd (main env polls))
  = if negb (sdl_init_ok env) || negb (forallb (texture_ok env) all_textures)
    then 0%nat
    else iterations polls.
Proof.
  unfold main.
  destruct (negb (sdl_init_ok env)); [reflexivity|].
  destruct (negb (forallb (texture_ok env) all_textures)); [reflexivity|].
  destruct (main_loop_planets polls) as (ps & tr & -> & _ & Hn & _).
  fold startup_effects. cbn [orb].
  destruct (quits polls); cbn [snd]; rewrite !frames_presented_app, Hn;
    cbn; lia.
Qed.

(** ** X5: after the stopping event *)

(** X5: polls that come after the first one with a stopping event are
    never looked at, and the frame of the iteration that received the
    stopping event is still drawn: with [pre] polls before it, the loop
    presents [length pre + 1] frames. *)
Theorem loop_ignores_later_polls {libm : Libm} pre pending rest :
  quits pre = false -> existsb stops pending = true ->
  (forall ps, main_loop (pre ++ pending :: rest) ps = main_loop (pre ++ [pending]) ps) /\
  frames_presented (snd (main_loop (pre ++ pending :: rest) planets)) = S (length pre).
Proof.
  intros Hpre Hp. split.
  - intros ps. now apply main_loop_stop.
  - destruct (main_loop_planets (pre ++ pending :: rest)) as (ps & tr & -> & _ & Hn & _).
    cbn [snd]. rewrite Hn. now apply iterations_stop.
Qed.

Lemma loop_ignores_later_polls_escape :
  (quits [[mouse_motion]] = false /\ existsb stops [escape_down] = true) /\
  (forall ps,
     main_loop (libm := series_libm) ([[mouse_motion]] ++ [escape_down] :: [[quit_event]]) ps
     = main_loop (libm := series_libm) ([[mouse_motion]] ++ [[escape_down]]) ps) /\
  frames_presented
    (snd (main_loop (libm := series_libm)
            ([[mouse_motion]] ++ [escape_down] :: [[quit_event]]) planets))
  = S (length [[mouse_motion]]).
Proof.
  split; [split; reflexivity|].
  exact (loop_ignores_later_polls (libm := series_libm)
           [[mouse_motion]] [escape_down] [[quit_event]] eq_refl eq_refl).
Defined.

(** ** X6: the events of one poll *)

(** X6: the flag left by a poll does not depend on the order in which its
    events are delivered, and a flag that is cleared stays cleared. *)
Theorem poll_events_any_order pending pending' running :
  Permutation pending pending' ->
  poll_events pending running = poll_events pending' running /\
  poll_events pending false = false.
Proof.
  intros HP. rewrite !poll_events_stops, (existsb_permutation stops _ _ HP).
  split; reflexivity.
Qed.

Lemma poll_events_any_order_swap :
  Permutation [mouse_motion; escape_down] [escape_down; mouse_motion] /\
  poll_events [mouse_motion; escape_down] true
    = poll_events [escape_down; mouse_motion] true /\
  poll_events [mouse_motion; escape_down] false = false.
Proof.
  assert (HP : Permutation [mouse_motion; escape_down] [escape_down; mouse_motion])
    by apply perm_swap.
  split; [exact HP|].
  exact (poll_events_any_order _ _ true HP).
Defined.

(** ** X7: the body stays within its reach *)

(** X7: one update of a body with small centre and half sizes, a radius of
    magnitude at most [2 ^ 20] and a finite angle, whatever its speed, is
    defined and puts the centre of its sprite within [reach] pixels of the
    centre of the sun in each direction, where [reach] is the integral part
    of the magnitude of the radius. *)
Theorem update_within_reach {libm : Libm} sunX sunY p R :
  small sunX = true -> small sunY = true ->
  small (halfW p) = true -> small (halfH p) = true ->
  (abs (orbitRadius p) <=? 0x1p20)%float = true ->
  Double.finite (angle p) = true ->
  reach p = Some R ->
  exists p',
    updatePosition sunX sunY p = Some p' /\
    - R <= x (rect p') + halfW p' - sunX <= R /\
    - R <= y (rect p') + halfH p' - sunY <= R.
Proof.
  intros HX HY HW HH Hr Ha HR.
  destruct (updatePosition_within sunX sunY p R HX HY HW HH Hr Ha HR)
    as (dx & dy & _ & _ & Bx & By & E).
  eexists. split; [exact E|]. cbn [placed rect x y halfW halfH]. lia.
Qed.

(** A body that runs backwards, at a negative angle. *)
Lemma update_within_reach_backwards :
  (small 960 = true /\ small 540 = true /\
   small (halfW (Planet_new 50 50 175.5 (-0.5) (-1) textureEarth)) = true /\
   small (halfH (Planet_new 50 50 175.5 (-0.5) (-1) textureEarth)) = true /\
   (abs (orbitRadius (Planet_new 50 50 175.5 (-0.5) (-1) textureEarth)) <=? 0x1p20)%float
   = true /\
   Double.finite (angle (Planet_new 50 50 175.5 (-0.5) (-1) textureEarth)) = true /\
   reach (Planet_new 50 50 175.5 (-0.5) (-1) textureEarth) = Some 175) /\
  exists p',
    updatePosition (libm := series_libm) 960 540
      (Planet_new 50 50 175.5 (-0.5) (-1) textureEarth) = Some p' /\
    - 175 <= x (rect p') + halfW p' - 960 <= 175 /\
    - 175 <= y (rect p') + halfH p' - 540 <= 175.
Proof.
  split; [repeat split; reflexivity|].
  exact (update_within_reach (libm := series_libm) 960 540
           (Planet_new 50 50 175.5 (-0.5) (-1) textureEarth) 175
           eq_refl eq_refl eq_refl eq_refl eq_refl eq_refl eq_refl).
Defined.

(** ** X8: the sprites and the window *)

(** X8: every rectangle that a run draws to (background, sun, planets, in
    every frame) lies within the width of the window, and within its height
    unless it is neptune's. *)
Theorem drawn_rectangles_inside_window {libm : Libm} env polls t dst :
  In (SDL_RenderCopy t dst) (snd (main env polls)) ->
  inside_x dst = true /\ (t = textureNeptune \/ inside_y dst = true).
Proof.
  intros H.
  assert (Hall : forallb drawn_inside (snd (main env polls)) = true).
  { unfold main.
    destruct (negb (sdl_init_ok env)); [reflexivity|].
    destruct (negb (forallb (texture_ok env) all_textures)); [reflexivity|].
    destruct (main_loop_planets polls) as (ps & tr & -> & _ & _ & Hd).
    fold startup_effects.
    destruct (quits polls); cbn [snd]; rewrite !forallb_app, Hd; reflexivity. }
  rewrite forallb_forall in Hall. apply Hall in H. cbn [drawn_inside] in H.
  apply andb_true_iff in H as [Hx Hy]. split; [exact Hx|].
  destruct t; cbn [is_neptune orb] in Hy; auto.
Qed.

Lemma drawn_rectangles_inside_window_neptune :
  In (SDL_RenderCopy textureNeptune {| x := 1480; y := 510; w := 60; h := 60 |})
     (snd (main (libm := series_libm) good_start [[quit_event]])) /\
  inside_x {| x := 1480; y := 510; w := 60; h := 60 |} = true /\
  (textureNeptune = textureNeptune \/
   inside_y {| x := 1480; y := 510; w := 60; h := 60 |} = true).
Proof.
  assert (H : In (SDL_RenderCopy textureNeptune {| x := 1480; y := 510; w := 60; h := 60 |})
                 (snd (main (libm := series_libm) good_start [[quit_event]]))).
  { vm_compute. do 26 right. left. reflexivity. }
  split; [exact H|].
  exact (drawn_rectangles_inside_window (libm := series_libm) good_start _ _ _ H).
Defined.

(** ** X9: mirrored angles *)

(** X9: because the conversion rounds toward zero, the offsets are odd in
    the cosine and the sine: two bodies of the same radius whose cosines
    (sines) are opposite are drawn with opposite horizontal (vertical)
    offsets of the sprite centre from the sun. *)
Theorem offsets_mirror {libm : Libm} sunX sunY p q p' q' :
  orbitRadius q = orbitRadius p ->
  updatePosition sunX sunY p = Some p' ->
  updatePosition sunX sunY q = Some q' ->
  (cos (angle q) = (- cos (angle p))%float ->
   x (rect q') + halfW q - sunX = - (x (rect p') + halfW p - sunX)) /\
  (sin (angle q) = (- sin (angle p))%float ->
   y (rect q') + halfH q - sunY = - (y (rect p') + halfH p - sunY)).
Proof.
  intros Hr Hp Hq.
  apply updatePosition_inv in Hp as (dx & dy & Hdx & Hdy & ->).
  apply updatePosition_inv in Hq as (ex & ey & Hex & Hey & ->).
  rewrite Hr in Hex, Hey. cbn [placed rect x y].
  split; intros Hc.
  - rewrite Hc, mul_opp_r in Hex. pose proof (to_int_opp _ _ _ Hdx Hex). lia.
  - rewrite Hc, mul_opp_r in Hey. pose proof (to_int_opp _ _ _ Hdy Hey). lia.
Qed.

Lemma offsets_mirror_series :
  exists p' q',
    updatePosition (libm := series_libm) 960 540
      (Planet_new 50 50 175 0.02 0 textureEarth) = Some p' /\
    updatePosition (libm := series_libm) 960 540
      (Planet_new 50 50 175 0.02 2 textureEarth) = Some q' /\
    series_cos 2 = (- series_cos 0)%float /\
    x (rect q') + 25 - 960 = - (x (rect p') + 25 - 960).
Proof.
  do 2 eexists. split; [vm_compute; reflexivity|]. split; [vm_compute; reflexivity|].
  split; [reflexivity|].
  refine (proj1 (offsets_mirror (libm := series_libm) 960 540
                   (Planet_new 50 50 175 0.02 0 textureEarth)
                   (Planet_new 50 50 175 0.02 2 textureEarth) _ _ eq_refl _ _) eq_refl);
    vm_compute; reflexivity.
Defined.

(** ** X10: the position lags the angle *)

(** X10: after [n + 1] updates the body stands where the angle after [n]
    updates puts it, while the stored angle is already the angle after
    [n + 1] updates: what is drawn is one step behind the angle. *)
Theorem position_lags_angle {libm : Libm} sunX sunY p n p' :
  updates (S n) sunX sunY p = Some p' ->
  exists dx dy,
    Double.to_int (orbitRadius p * cos (angle_after n (angle p) (orbitSpeed p))) = Some dx /\
    Double.to_int (orbitRadius p * sin (angle_after n (angle p) (orbitSpeed p))) = Some dy /\
    x (rect p') = sunX + dx - halfW p /\
    y (rect p') = sunY + dy - halfH p /\
    angle p' = angle_after (S n) (angle p) (orbitSpeed p).
Proof.
  intros H. pose proof (updates_inv _ _ _ _ _ H) as (Ha' & _).
  rewrite updates_snoc in H. step_obind H.
  apply updates_inv in E as (Ha & Hr & Hs & _ & HW & HH & _).
  apply updatePosition_inv in H as (dx & dy & Hdx & Hdy & ->).
  rewrite Hr, Ha in Hdx, Hdy. rewrite HW, HH.
  exists dx, dy. repeat split; assumption.
Qed.

Lemma position_lags_angle_earth :
  exists p',
    updates (libm := series_libm) 3 960 540 earth = Some p' /\
    exists dx dy,
      Double.to_int (orbitRadius earth
                     * series_cos (angle_after 2 (angle earth) (orbitSpeed earth)))
        = Some dx /\
      Double.to_int (orbitRadius earth
                     * series_sin (angle_after 2 (angle earth) (orbitSpeed earth)))
        = Some dy /\
      x (rect p') = 960 + dx - halfW earth /\
      y (rect p') = 540 + dy - halfH earth /\
      angle p' = angle_after 3 (angle earth) (orbitSpeed earth).
Proof.
  eexists. split; [vm_compute; reflexivity|].
  refine (position_lags_angle (libm := series_libm) 960 540 earth 2 _ _).
  vm_compute. reflexivity.
Defined.

(** ** X11: the angle over time *)

(** X11: an update of a steady body never decreases the angle; the new
    angle is again a finite double between [0] and [2 ^ 52], and the body is
    steady again, so this holds in every frame. *)
Theorem angle_never_decreases {libm : Libm} sunX sunY p :
  small sunX = true -> small sunY = true -> steady p = true ->
  exists p',
    updatePosition sunX sunY p = Some p' /\
    steady p' = true /\
    (angle p <=? angle p')%float = true /\
    (0 <=? angle p')%float = true /\
    (angle p' <=? 0x1p52)%float = true /\
    Double.finite (angle p') = true.
Proof.
  intros HX HY Hp.
  destruct (updatePosition_steady sunX sunY p HX HY Hp) as (dx & dy & _ & _ & E & Hp').
  eexists. split; [exact E|]. split; [exact Hp'|].
  destruct (steady_inv _ Hp) as (Ha & Hs & _).
  destruct (steady_inv _ Hp') as (Ha' & _).
  split; [exact (angle_step_ge _ _ Ha Hs)|].
  pose proof (angle_ok_finite _ Ha') as Hfin.
  unfold angle_ok in Ha'. apply andb_true_iff in Ha' as [H0 H1].
  repeat split; assumption.
Qed.

Lemma angle_never_decreases_earth :
  (small 960 = true /\ small 540 = true /\ steady earth = true) /\
  exists p',
    updatePosition (libm := series_libm) 960 540 earth = Some p' /\
    steady p' = true /\
    (angle earth <=? angle p')%float = true /\
    (0 <=? angle p')%float = true /\
    (angle p' <=? 0x1p52)%float = true /\
    Double.finite (angle p') = true.
Proof.
  split; [repeat split; reflexivity|].
  exact (angle_never_decreases (libm := series_libm) 960 540 earth eq_refl eq_refl eq_refl).
Defined.

(** ** X12: a radius beyond [int] *)

(** X12: the update does not guard the conversion to [int]: for a body at
    angle [0] whose radius is [2 ^ 31] or more (infinite included) the
    conversion of [orbitRadius * cos(angle)] is out of range, and the
    update is undefined. *)
Theorem huge_radius_undefined {libm : Libm} sunX sunY w h r s t :
  (0x1p31 <=? r)%float = true ->
  updatePosition sunX sunY (Planet_new w h r s 0 t) = None.
Proof.
  intros H. unfold updatePosition, Planet_new. cbn [orbitRadius angle].
  rewrite cos_zero, (to_int_mul_one_beyond r H). reflexivity.
Qed.

Lemma huge_radius_undefined_1e10 :
  (0x1p31 <=? 1e10)%float = true /\
  updatePosition (libm := series_libm) 960 540 (Planet_new 50 50 1e10 0.02 0 textureEarth)
  = None.
Proof.
  split; [reflexivity|].
  exact (huge_radius_undefined (libm := series_libm) 960 540 50 50 1e10 0.02 textureEarth
           eq_refl).
Defined.
